(** * go-closure-issue: the client-side staging pipeline

    A shallow embedding of the rsync client of this repository
    ([Path], [Client.dispatch], [Client.receive], [Client.Stage]) as a
    labelled transition system over the goroutines and channels the code
    creates, with the properties of its specification stated over it. *)

From Stdlib Require Import List String Ascii Bool Arith Lia NArith.
From Stdlib.Strings Require Import Byte.
Import ListNotations.
Open Scope string_scope.

Set Implicit Arguments.

(** ** Library functions the client calls

    [path/filepath] (Unix flavour, separator '/') and the "%x" verb of
    [fmt.Sprintf] applied to a byte slice. *)

Module Filepath.

Definition Separator : ascii := "/"%char.

(** The elements of a path between separators, empty elements included. *)
Fixpoint elements (s : string) : list string :=
  match s with
  | EmptyString => [EmptyString]
  | String ch rest =>
      if Ascii.eqb ch Separator then EmptyString :: elements rest
      else match elements rest with
           | e :: es => String ch e :: es
           | [] => [String ch EmptyString]
           end
  end.

(** One element read by [Clean]; [out] holds the elements written so far,
    last one first.  Empty and "." elements are dropped; ".." removes the
    last real element, is kept in front of a relative path and is dropped
    at the top of a rooted one. *)
Definition clean_element (rooted : bool) (out : list string) (e : string)
  : list string :=
  if (e =? "") || (e =? ".") then out
  else if e =? ".." then
    match out with
    | top :: below => if top =? ".." then e :: out else below
    | [] => if rooted then [] else [e]
    end
  else e :: out.

Definition is_rooted (path : string) : bool :=
  match path with
  | String ch _ => Ascii.eqb ch Separator
  | EmptyString => false
  end.

Definition Clean (path : string) : string :=
  if path =? "" then "."
  else
    let rooted := is_rooted path in
    let out := fold_left (clean_element rooted) (elements path) [] in
    let body := String.concat "/" (rev out) in
    if rooted then "/" ++ body
    else if body =? "" then "." else body.

(** [Join] ignores leading empty elements, joins what is left with the
    separator and cleans the result. *)
Fixpoint Join (elem : list string) : string :=
  match elem with
  | [] => ""
  | e :: rest =>
      if e =? "" then Join rest else Clean (String.concat "/" elem)
  end.

End Filepath.

Module Fmt.

Definition hex_digits : list ascii := list_ascii_of_string "0123456789abcdef".

Definition hex_digit (n : N) : ascii := nth (N.to_nat n) hex_digits "0"%char.

Definition hex_byte (b : byte) : string :=
  let n := Byte.to_N b in
  String (hex_digit (n / 16)) (String (hex_digit (n mod 16)) EmptyString).

(** [fmt.Sprintf("%x", bs)]: two lower-case digits per byte. *)
Definition Sprintf_x (bs : list byte) : string :=
  String.concat "" (map hex_byte bs).

End Fmt.

(** ** path.go *)

Definition Path : Type := list string.

Definition Appended (p : Path) (component : string) : Path :=
  (p ++ [component])%list.

Definition Path_String (p : Path) : string := String.concat "/" p.

Definition AppendedToRoot (p : Path) (root : string) : string :=
  let path := Filepath.Join p in
  Filepath.Join [root; path].

(** ** protocol.go and the data of client.go *)

(** A Go [error] value: [None] is [nil], [Some msg] a non-nil error. *)
Definition error : Type := option string.

Definition is_nil (e : error) : bool :=
  match e with None => true | Some _ => false end.

(** [rsync.BlockHash] and [rsync.Operation] belong to the delta engine and
    are opaque to the client. *)
Definition BlockHash : Type := nat.
Definition Operation : Type := nat.

Record request := mkRequest {
  req_Path : Path;
  req_BaseSignature : list BlockHash }.

Record response := mkResponse {
  resp_Operation : Operation;
  resp_Done : bool }.

Definition maxOutstandingStagingRequests : nat := 4.
Definition stagingTempFileBaseName : string := "staging".

(** A base handle: the file [os.Open] returned, or the empty stand-in of
    [newEmptyReadSeekCloser].  The number tells the handles of one run
    apart (the n-th handle dispatch obtained). *)
Inductive readSeekCloser : Type :=
| OsFile (n : nat)
| EmptyReadSeekCloser (n : nat).

Record dispatchedRequest := mkDispatched {
  dr_path : Path;
  dr_base : readSeekCloser }.

(** The fields of [Client] that the pipeline reads as values; the stream,
    the two rsync engines and the staging hash are the environment. *)
Record Client := mkClient {
  root : string;
  staging : string }.

(** What the run did to the staging directory. *)
Inductive fs_event : Type :=
| FsTempFile (name : string)
| FsRemove (name : string) (ok : bool)
| FsRename (oldname newname : string) (ok : bool).

(** ** Control points of the goroutines *)

(** [dispatch], and the goroutine of [Stage] that sends its result. *)
Inductive dispatch_pc : Type :=
| DLoop (rest : list Path)
| DSignature (path : Path) (rest : list Path) (base : readSeekCloser)
| DEncode (path : Path) (rest : list Path) (base : readSeekCloser)
          (signature : list BlockHash)
| DSelect (path : Path) (rest : list Path) (base : readSeekCloser)
| DSend (result : error)
| DExit.

(** The variables of one iteration of the loop of [receive]. *)
Record feed := mkFeed {
  dispatched : dispatchedRequest;
  target : string;
  applyError : error;
  decodeError : error;
  applyExited : bool }.

Definition set_applyError (e : error) (f : feed) : feed :=
  mkFeed (dispatched f) (target f) e (decodeError f) (applyExited f).
Definition set_decodeError (e : error) (f : feed) : feed :=
  mkFeed (dispatched f) (target f) (applyError f) e (applyExited f).
Definition set_applyExited (b : bool) (f : feed) : feed :=
  mkFeed (dispatched f) (target f) (applyError f) (decodeError f) b.

(** [receive], and the goroutine of [Stage] that sends its result. *)
Inductive receive_pc : Type :=
| RSelect
| RTempFile (d : dispatchedRequest)
| RDecode (f : feed)
| RForward (f : feed) (op : Operation)
| RBurn (f : feed)
| RCloseOperations (f : feed)
| RAwaitApply (f : feed)
| RCommit (f : feed)
| RSend (result : error)
| RExit.

(** The goroutine running [ApplyDelta] for the current path. *)
Inductive apply_pc : Type :=
| ANone
| ARunning
| AReturned.

(** [Stage] itself. *)
Inductive stage_pc : Type :=
| SWait (dispatchRunning receiveRunning : bool)
        (dispatchError receiveError : error)
| SDrain (dispatchError receiveError : error)
| SReturn (result : error).

(** ** The state of one call of [Stage] *)

Record state := mkState {
  dpc : dispatch_pc;
  rpc : receive_pc;
  apc : apply_pc;
  spc : stage_pc;
  (* channels *)
  outstanding : list dispatchedRequest;
  outstanding_closed : bool;
  dispatchCancel : bool;
  receiveCancel : bool;
  applyErrors : option error;
  (* what the run did to the world *)
  opened : list (string * readSeekCloser);
  closed : list readSeekCloser;
  sent : list request;
  fslog : list fs_event }.

Definition set_dpc v s :=
  mkState v (rpc s) (apc s) (spc s) (outstanding s) (outstanding_closed s)
    (dispatchCancel s) (receiveCancel s) (applyErrors s) (opened s) (closed s)
    (sent s) (fslog s).
Definition set_rpc v s :=
  mkState (dpc s) v (apc s) (spc s) (outstanding s) (outstanding_closed s)
    (dispatchCancel s) (receiveCancel s) (applyErrors s) (opened s) (closed s)
    (sent s) (fslog s).
Definition set_apc v s :=
  mkState (dpc s) (rpc s) v (spc s) (outstanding s) (outstanding_closed s)
    (dispatchCancel s) (receiveCancel s) (applyErrors s) (opened s) (closed s)
    (sent s) (fslog s).
Definition set_spc v s :=
  mkState (dpc s) (rpc s) (apc s) v (outstanding s) (outstanding_closed s)
    (dispatchCancel s) (receiveCancel s) (applyErrors s) (opened s) (closed s)
    (sent s) (fslog s).
Definition set_outstanding v s :=
  mkState (dpc s) (rpc s) (apc s) (spc s) v (outstanding_closed s)
    (dispatchCancel s) (receiveCancel s) (applyErrors s) (opened s) (closed s)
    (sent s) (fslog s).
Definition set_outstanding_closed v s :=
  mkState (dpc s) (rpc s) (apc s) (spc s) (outstanding s) v
    (dispatchCancel s) (receiveCancel s) (applyErrors s) (opened s) (closed s)
    (sent s) (fslog s).
Definition set_dispatchCancel v s :=
  mkState (dpc s) (rpc s) (apc s) (spc s) (outstanding s) (outstanding_closed s)
    v (receiveCancel s) (applyErrors s) (opened s) (closed s)
    (sent s) (fslog s).
Definition set_receiveCancel v s :=
  mkState (dpc s) (rpc s) (apc s) (spc s) (outstanding s) (outstanding_closed s)
    (dispatchCancel s) v (applyErrors s) (opened s) (closed s)
    (sent s) (fslog s).
Definition set_applyErrors v s :=
  mkState (dpc s) (rpc s) (apc s) (spc s) (outstanding s) (outstanding_closed s)
    (dispatchCancel s) (receiveCancel s) v (opened s) (closed s)
    (sent s) (fslog s).
Definition set_opened v s :=
  mkState (dpc s) (rpc s) (apc s) (spc s) (outstanding s) (outstanding_closed s)
    (dispatchCancel s) (receiveCancel s) (applyErrors s) v (closed s)
    (sent s) (fslog s).
Definition set_closed v s :=
  mkState (dpc s) (rpc s) (apc s) (spc s) (outstanding s) (outstanding_closed s)
    (dispatchCancel s) (receiveCancel s) (applyErrors s) (opened s) v
    (sent s) (fslog s).
Definition set_sent v s :=
  mkState (dpc s) (rpc s) (apc s) (spc s) (outstanding s) (outstanding_closed s)
    (dispatchCancel s) (receiveCancel s) (applyErrors s) (opened s) (closed s)
    v (fslog s).
Definition set_fslog v s :=
  mkState (dpc s) (rpc s) (apc s) (spc s) (outstanding s) (outstanding_closed s)
    (dispatchCancel s) (receiveCancel s) (applyErrors s) (opened s) (closed s)
    (sent s) v.

(** [base.Close()]. *)
Definition close_base (b : readSeekCloser) (s : state) : state :=
  set_closed (closed s ++ [b])%list s.

(** [Stage] enters with both goroutines started and every channel empty. *)
Definition initial (paths : list Path) : state :=
  mkState (DLoop paths) RSelect ANone (SWait true true None None)
    [] false false false None [] [] [] [].

(** ** Steps

    A label names the goroutine that moves, the branch a [select] takes and
    what the environment answers: the results of [os.Open],
    [CreateSignature], [Encode], [Decode], [ioutil.TempFile], [os.Remove],
    [os.Rename], [Sum] and [ApplyDelta]. *)

Inductive label : Type :=
(* dispatch *)
| DispOpen (ok : bool)
| DispSignature (r : option (list BlockHash))
| DispEncode (err : error)
| DispEnqueue
| DispCancelled
| DispClose
(* receive *)
| RecvDequeue
| RecvClosed
| RecvCancelled
| RecvTempFile (r : string + string)
| RecvDecode (r : string + response)
| RecvForward
| RecvApplyExited
| RecvBurn (r : string + response)
| RecvCloseOperations
| RecvAwaitApply
| RecvCommit (sum : list byte) (ok : bool)
(* the ApplyDelta goroutine *)
| ApplyReturn (err : error)
(* Stage *)
| StageDispatchDone
| StageReceiveDone
| StageDrain
| StageReturn.

(** The loop condition of [Stage]: [for dispatchRunning || receiveRunning]. *)
Definition stage_wait (dispatchRunning receiveRunning : bool)
    (dispatchError receiveError : error) : stage_pc :=
  if dispatchRunning || receiveRunning
  then SWait dispatchRunning receiveRunning dispatchError receiveError
  else SDrain dispatchError receiveError.

(** The last statements of [Stage]. *)
Definition stage_result (dispatchError receiveError : error) : error :=
  match dispatchError with
  | Some _ => dispatchError
  | None =>
      match receiveError with
      | Some _ => receiveError
      | None => None
      end
  end.

(** Sending on a cancellation channel of capacity one. *)
Definition raise_cancel (e : error) (cancel : bool) : bool :=
  match e with Some _ => true | None => cancel end.

(** The commit at the end of an iteration of [receive]: remove the temporary
    file if anything failed, else rename it to the digest in hexadecimal,
    inside the staging directory.  The results of both calls are dropped. *)
Definition commit (c : Client) (f : feed) (sum : list byte) (ok : bool)
  : fs_event :=
  match decodeError f, applyError f with
  | None, None =>
      let name := Fmt.Sprintf_x sum in
      FsRename (target f) (Filepath.Join [staging c; name]) ok
  | _, _ => FsRemove (target f) ok
  end.

(** [if decodeError != nil { return decodeError }], else the next iteration. *)
Definition after_commit (f : feed) : receive_pc :=
  match decodeError f with
  | Some e => RSend (Some e)
  | None => RSelect
  end.

Definition step (c : Client) (l : label) (s : state) : option state :=
  match l with
  (* os.Open(path.AppendedToRoot(c.root)), an empty base if it fails *)
  | DispOpen ok =>
      match dpc s with
      | DLoop (path :: rest) =>
          let n := List.length (opened s) in
          let base := if ok then OsFile n else EmptyReadSeekCloser n in
          let host := AppendedToRoot path (root c) in
          Some (set_dpc (DSignature path rest base)
                  (set_opened (opened s ++ [(host, base)])%list s))
      | _ => None
      end
  (* CreateSignature: on an error close the base and continue *)
  | DispSignature r =>
      match dpc s with
      | DSignature path rest base =>
          match r with
          | None => Some (set_dpc (DLoop rest) (close_base base s))
          | Some signature => Some (set_dpc (DEncode path rest base signature) s)
          end
      | _ => None
      end
  (* c.stream.Encode(request{path, signature}): on an error return it *)
  | DispEncode err =>
      match dpc s with
      | DEncode path rest base signature =>
          match err with
          | Some e => Some (set_dpc (DSend (Some e)) s)
          | None =>
              Some (set_dpc (DSelect path rest base)
                      (set_sent (sent s ++ [mkRequest path signature])%list s))
          end
      | _ => None
      end
  (* select, case outstanding <- dispatchedRequest{path, base} *)
  | DispEnqueue =>
      match dpc s with
      | DSelect path rest base =>
          if Nat.ltb (List.length (outstanding s)) maxOutstandingStagingRequests
          then Some (set_dpc (DLoop rest)
                       (set_outstanding
                          (outstanding s ++ [mkDispatched path base])%list s))
          else None
      | _ => None
      end
  (* select, case <-cancel: base.Close(); break.  The break leaves the
     select statement, and the for loop goes on with the next path. *)
  | DispCancelled =>
      match dpc s with
      | DSelect path rest base =>
          if dispatchCancel s
          then Some (set_dpc (DLoop rest)
                       (close_base base (set_dispatchCancel false s)))
          else None
      | _ => None
      end
  (* the paths are exhausted: close(outstanding); return nil *)
  | DispClose =>
      match dpc s with
      | DLoop [] => Some (set_dpc (DSend None) (set_outstanding_closed true s))
      | _ => None
      end
  (* select, case dispatchedRequest = <-outstanding, a record received *)
  | RecvDequeue =>
      match rpc s, outstanding s with
      | RSelect, d :: q => Some (set_rpc (RTempFile d) (set_outstanding q s))
      | _, _ => None
      end
  (* the same case on the closed, empty channel: the zero record, whose
     base is nil; return nil *)
  | RecvClosed =>
      match rpc s, outstanding s with
      | RSelect, [] =>
          if outstanding_closed s then Some (set_rpc (RSend None) s) else None
      | _, _ => None
      end
  (* select, case <-cancel: return nil *)
  | RecvCancelled =>
      match rpc s with
      | RSelect =>
          if receiveCancel s
          then Some (set_rpc (RSend None) (set_receiveCancel false s))
          else None
      | _ => None
      end
  (* ioutil.TempFile(c.staging, stagingTempFileBaseName); on success make
     the two channels, reset the hash and start the ApplyDelta goroutine *)
  | RecvTempFile r =>
      match rpc s with
      | RTempFile d =>
          match r with
          | inl e => Some (set_rpc (RSend (Some e)) (close_base (dr_base d) s))
          | inr suffix =>
              let name :=
                Filepath.Join [staging c; stagingTempFileBaseName ++ suffix] in
              Some (set_rpc (RDecode (mkFeed d name None None false))
                      (set_apc ARunning
                         (set_applyErrors None
                            (set_fslog (fslog s ++ [FsTempFile name])%list s))))
          end
      | _ => None
      end
  (* c.stream.Decode(&response) at the head of the feeding loop *)
  | RecvDecode r =>
      match rpc s with
      | RDecode f =>
          match r with
          | inl e => Some (set_rpc (RCloseOperations (set_decodeError (Some e) f)) s)
          | inr resp =>
              if resp_Done resp
              then Some (set_rpc (RCloseOperations f) s)
              else Some (set_rpc (RForward f (resp_Operation resp)) s)
          end
      | _ => None
      end
  (* select, case operations <- response.Operation: the channel has no
     buffer, ApplyDelta takes the operation *)
  | RecvForward =>
      match rpc s, apc s with
      | RForward f op, ARunning => Some (set_rpc (RDecode f) s)
      | _, _ => None
      end
  (* select, case applyError = <-applyErrors: applyExited = true, then
     burnRemainingOperations *)
  | RecvApplyExited =>
      match rpc s, applyErrors s with
      | RForward f op, Some e =>
          Some (set_rpc (RBurn (set_applyExited true (set_applyError e f)))
                  (set_applyErrors None s))
      | _, _ => None
      end
  (* burnRemainingOperations: decode until an error or Done; its result is
     assigned to decodeError; the break that follows leaves the select
     statement, and the feeding loop decodes again *)
  | RecvBurn r =>
      match rpc s with
      | RBurn f =>
          match r with
          | inl e => Some (set_rpc (RDecode (set_decodeError (Some e) f)) s)
          | inr resp =>
              if resp_Done resp
              then Some (set_rpc (RDecode (set_decodeError None f)) s)
              else Some (set_rpc (RBurn f) s)
          end
      | _ => None
      end
  (* close(operations), then if !applyExited wait for applyErrors *)
  | RecvCloseOperations =>
      match rpc s with
      | RCloseOperations f =>
          if applyExited f
          then Some (set_rpc (RCommit f) s)
          else Some (set_rpc (RAwaitApply f) s)
      | _ => None
      end
  (* applyError = <-applyErrors *)
  | RecvAwaitApply =>
      match rpc s, applyErrors s with
      | RAwaitApply f, Some e =>
          Some (set_rpc (RCommit (set_applyError e f)) (set_applyErrors None s))
      | _, _ => None
      end
  (* target.Close(), remove or rename, return a decode error *)
  | RecvCommit sum ok =>
      match rpc s with
      | RCommit f =>
          Some (set_rpc (after_commit f)
                  (set_fslog (fslog s ++ [commit c f sum ok])%list s))
      | _ => None
      end
  (* applyErrors <- c.receiveRsyncer.ApplyDelta(...): the channel has room
     for the one value *)
  | ApplyReturn err =>
      match apc s with
      | ARunning => Some (set_apc AReturned (set_applyErrors (Some err) s))
      | _ => None
      end
  (* select, case dispatchError = <-dispatchErrors *)
  | StageDispatchDone =>
      match dpc s, spc s with
      | DSend e, SWait _ receiveRunning _ receiveError =>
          Some (set_dpc DExit
                  (set_spc (stage_wait false receiveRunning e receiveError)
                     (set_receiveCancel (raise_cancel e (receiveCancel s)) s)))
      | _, _ => None
      end
  (* select, case receiveError = <-receiveErrors *)
  | StageReceiveDone =>
      match rpc s, spc s with
      | RSend e, SWait dispatchRunning _ dispatchError _ =>
          Some (set_rpc RExit
                  (set_spc (stage_wait dispatchRunning false dispatchError e)
                     (set_dispatchCancel (raise_cancel e (dispatchCancel s)) s)))
      | _, _ => None
      end
  (* for dispatched := range outstanding { dispatched.base.Close() } *)
  | StageDrain =>
      match spc s, outstanding s with
      | SDrain _ _, d :: q =>
          Some (close_base (dr_base d) (set_outstanding q s))
      | _, _ => None
      end
  (* the range loop ends when the channel is closed and empty *)
  | StageReturn =>
      match spc s, outstanding s with
      | SDrain dispatchError receiveError, [] =>
          if outstanding_closed s
          then Some (set_spc (SReturn (stage_result dispatchError receiveError)) s)
          else None
      | _, _ => None
      end
  end.

(** A run: the labels taken one after the other. *)
Fixpoint run (c : Client) (ls : list label) (s : state) : option state :=
  match ls with
  | [] => Some s
  | l :: ls' =>
      match step c l s with
      | Some s' => run c ls' s'
      | None => None
      end
  end.

(** No goroutine can move. *)
Definition stuck (c : Client) (s : state) : Prop :=
  forall l, step c l s = None.

Definition returned (s : state) : bool :=
  match spc s with SReturn _ => true | _ => false end.

(** ** What is observed of a state *)

(** The files committed under their final names. *)
Definition staged_files (log : list fs_event) : list string :=
  flat_map (fun ev =>
              match ev with
              | FsRename _ newname true => [newname]
              | _ => []
              end) log.

Definition readSeekCloser_eq_dec (a b : readSeekCloser) : {a = b} + {a <> b}.
Proof. decide equality; apply Nat.eq_dec. Defined.

(** The base handles dispatch obtained, and how often one was closed. *)
Definition bases (s : state) : list readSeekCloser := map snd (opened s).

Definition times_closed (b : readSeekCloser) (s : state) : nat :=
  count_occ readSeekCloser_eq_dec (closed s) b.

(** The environment's answers that the code treats as fatal for the
    session: a failed Encode, a failed Decode, a failed TempFile. *)
Definition session_fatal (l : label) : bool :=
  match l with
  | DispEncode (Some _) => true
  | RecvTempFile (inl _) => true
  | RecvDecode (inl _) => true
  | RecvBurn (inl _) => true
  | _ => false
  end.

(** No goroutine holds a session error: neither as the result it is about
    to send, nor in [decodeError], nor in the variables of [Stage]. *)
Definition dispatch_quiet (pc : dispatch_pc) : bool :=
  match pc with
  | DSend e => is_nil e
  | _ => true
  end.

Definition receive_quiet (pc : receive_pc) : bool :=
  match pc with
  | RSelect | RTempFile _ | RExit => true
  | RDecode f | RForward f _ | RBurn f | RCloseOperations f
  | RAwaitApply f | RCommit f => is_nil (decodeError f)
  | RSend e => is_nil e
  end.

Definition stage_quiet (pc : stage_pc) : bool :=
  match pc with
  | SWait _ _ dispatchError receiveError
  | SDrain dispatchError receiveError =>
      is_nil dispatchError && is_nil receiveError
  | SReturn result => is_nil result
  end.

Definition quiet (s : state) : bool :=
  dispatch_quiet (dpc s) && receive_quiet (rpc s) && stage_quiet (spc s).

(** Dispatch is inside its loop. *)
Definition dispatching (pc : dispatch_pc) : bool :=
  match pc with
  | DLoop _ | DSignature _ _ _ | DEncode _ _ _ _ | DSelect _ _ _ => true
  | DSend _ | DExit => false
  end.

(** Dispatch has left its loop by the return that follows a failed Encode,
    which does not pass [close(outstanding)]. *)
Definition queue_left_open (s : state) : bool :=
  negb (outstanding_closed s) &&
  match dpc s with
  | DSend (Some _) | DExit => true
  | _ => false
  end.

(** The variables of the iteration receive is in, if it is in one. *)
Definition current_feed (pc : receive_pc) : option feed :=
  match pc with
  | RDecode f | RForward f _ | RBurn f | RCloseOperations f
  | RAwaitApply f | RCommit f => Some f
  | RSelect | RTempFile _ | RSend _ | RExit => None
  end.

(** A result waits in [applyErrors] only once ApplyDelta has returned, and
    once receive has taken it ([applyExited]) the channel is empty. *)
Definition apply_consistent (s : state) : Prop :=
  (applyErrors s <> None -> apc s = AReturned) /\
  (forall f, current_feed (rpc s) = Some f -> applyExited f = true ->
             apc s = AReturned /\ applyErrors s = None).

(** Who holds a base handle: dispatch between the open and the enqueue,
    the queue, receive from the dequeue to the end of the iteration. *)
Definition base_number (b : readSeekCloser) : nat :=
  match b with OsFile n | EmptyReadSeekCloser n => n end.

Definition held_by_dispatch (pc : dispatch_pc) : list readSeekCloser :=
  match pc with
  | DSignature _ _ b | DEncode _ _ b _ | DSelect _ _ b => [b]
  | DLoop _ | DSend _ | DExit => []
  end.

Definition held_by_receive (pc : receive_pc) : list readSeekCloser :=
  match pc with
  | RTempFile d => [dr_base d]
  | RDecode f | RForward f _ | RBurn f | RCloseOperations f
  | RAwaitApply f | RCommit f => [dr_base (dispatched f)]
  | RSelect | RSend _ | RExit => []
  end.

(** The handles held, followed by the handles closed. *)
Definition accounted (s : state) : list nat :=
  map base_number
    (held_by_dispatch (dpc s) ++ map dr_base (outstanding s) ++
     held_by_receive (rpc s) ++ closed s)%list.

(** A handle is held by one party at most, or was closed once and is held
    no more; the handles not yet obtained are nowhere. *)
Definition exclusive (s : state) : Prop :=
  forall n,
    count_occ Nat.eq_dec (accounted s) n <= 1 /\
    (List.length (opened s) <= n -> count_occ Nat.eq_dec (accounted s) n = 0).

(** A handle that was obtained and is neither held nor closed. *)
Definition unaccounted (n : nat) (s : state) : Prop :=
  n < List.length (opened s) /\ count_occ Nat.eq_dec (accounted s) n = 0.

(** A host path lies under a directory. *)
Definition within (dir p : string) : bool :=
  (p =? dir) || String.prefix (dir ++ "/") p.

(** An element without separator, and one that names a file. *)
Definition no_separator (e : string) : bool :=
  forallb (fun ch => negb (Ascii.eqb ch Filepath.Separator))
          (list_ascii_of_string e).

Definition plain_element (e : string) : bool :=
  negb (e =? "") && negb (e =? ".") && negb (e =? "..") && no_separator e.

(** The elements [Filepath.Clean] keeps. *)
Definition kept (e : string) : bool :=
  negb (e =? "") && negb (e =? ".") && no_separator e.

(** The entry [name] of the directory whose cleaned path is [dir]. *)
Definition child (dir name : string) : string :=
  if (dir =? "") || (dir =? ".") then name
  else if dir =? "/" then "/" ++ name
  else dir ++ "/" ++ name.

Definition lower_hex (ch : ascii) : bool :=
  existsb (Ascii.eqb ch) Fmt.hex_digits.

(** Dispatch of paths whose signatures all fail; [oks] tells for each path
    whether its base could be opened. *)
Definition skip_all (oks : list bool) : list label :=
  flat_map (fun ok => [DispOpen ok; DispSignature None]) oks.

(** ** Further definitions

    [Path.Appended] as the source writes it, on slices: [make], [copy] and
    the assignment to an index, which panics out of range ([None]). *)

Definition make_Path (n : nat) : Path := repeat "" n.

(** [copy(dst, src)]: the first [min (len dst) (len src)] elements of
    [dst] are overwritten. *)
Definition copy (dst src : Path) : Path :=
  (firstn (List.length dst) src ++ skipn (List.length src) dst)%list.

Definition set_index (p : Path) (i : nat) (v : string) : option Path :=
  if Nat.ltb i (List.length p)
  then Some (firstn i p ++ v :: skipn (S i) p)%list
  else None.

Definition Appended_slice (p : Path) (component : string) : option Path :=
  let existingLength := List.length p in
  let result := make_Path (existingLength + 1) in
  let result := copy result p in
  set_index result existingLength component.


Definition separator_free (p : Path) : bool := forallb no_separator p.

(** The base handles some party holds: dispatch, the queue, receive. *)
Definition held (s : state) : list readSeekCloser :=
  (held_by_dispatch (dpc s) ++ map dr_base (outstanding s) ++
   held_by_receive (rpc s))%list.

(** [l1] is [l2] with some elements left out, the order kept. *)
Inductive subsequence {A : Type} : list A -> list A -> Prop :=
| subsequence_nil : subsequence [] []
| subsequence_skip x l1 l2 : subsequence l1 l2 -> subsequence l1 (x :: l2)
| subsequence_keep x l1 l2 :
    subsequence l1 l2 -> subsequence (x :: l1) (x :: l2).

(** The host paths dispatch opens for a list of paths. *)
Definition hosts (c : Client) (paths : list Path) : list string :=
  map (fun path => AppendedToRoot path (root c)) paths.

(** The paths dispatch has not opened yet, while it is in its loop. *)
Definition unopened (pc : dispatch_pc) : option (list Path) :=
  match pc with
  | DLoop rest | DSignature _ rest _ | DEncode _ rest _ _
  | DSelect _ rest _ => Some rest
  | DSend _ | DExit => None
  end.

(** The paths whose request is neither sent nor given up. *)
Definition unsent (pc : dispatch_pc) : option (list Path) :=
  match pc with
  | DLoop rest | DSelect _ rest _ => Some rest
  | DSignature path rest _ | DEncode path rest _ _ => Some (path :: rest)
  | DSend _ | DExit => None
  end.

Definition sent_paths (s : state) : list Path := map req_Path (sent s).
Definition queued_paths (s : state) : list Path :=
  map dr_path (outstanding s).

(** Dispatch has opened the first paths of the list, in order, and all of
    them once it has closed the queue. *)
Definition opened_in_order (c : Client) (paths : list Path) (s : state)
  : Prop :=
  exists done rest,
    paths = (done ++ rest)%list /\
    map fst (opened s) = hosts c done /\
    (forall r, unopened (dpc s) = Some r -> r = rest) /\
    (outstanding_closed s = true -> rest = []).

(** The requests sent are among the first paths of the list, in order. *)
Definition requests_in_order (paths : list Path) (s : state) : Prop :=
  exists done rest,
    paths = (done ++ rest)%list /\
    subsequence (sent_paths s) done /\
    (forall r, unsent (dpc s) = Some r -> r = rest).

(** The records queued are among the requests sent, in order; at the select
    statement the request of the current path is the last one sent. *)
Definition queue_in_order (s : state) : Prop :=
  match dpc s with
  | DSelect path _ _ =>
      exists before,
        sent_paths s = (before ++ [path])%list /\
        subsequence (queued_paths s) before
  | _ => subsequence (queued_paths s) (sent_paths s)
  end.

(** A cancellation is in its channel only after the goroutine that sent
    the result which raised it has ended. *)
Definition cancel_after_exit (s : state) : Prop :=
  (receiveCancel s = true -> dpc s = DExit) /\
  (dispatchCancel s = true -> rpc s = RExit).

(** Where ApplyDelta and the channel of its result stand, for each control
    point of receive: outside an iteration and at the commit ApplyDelta is
    not running and the channel is empty; inside, either receive has taken
    the result, or ApplyDelta runs, or its result waits in the channel. *)
Definition apply_in_step (s : state) : Prop :=
  match rpc s with
  | RSelect | RTempFile _ | RSend _ | RExit | RCommit _ =>
      apc s <> ARunning /\ applyErrors s = None
  | RDecode f | RForward f _ | RBurn f | RCloseOperations f
  | RAwaitApply f =>
      if applyExited f
      then apc s = AReturned /\ applyErrors s = None
      else (apc s = ARunning /\ applyErrors s = None) \/
           (apc s = AReturned /\ applyErrors s <> None)
  end.

(** What Stage knows of the two goroutines it waits for. *)
Definition dispatch_ended (s : state) : bool :=
  match dpc s with DExit => true | _ => false end.

Definition receive_ended (s : state) : bool :=
  match rpc s with RExit => true | _ => false end.

Definition stage_in_step (s : state) : Prop :=
  match spc s with
  | SWait dispatchRunning receiveRunning _ _ =>
      dispatchRunning = negb (dispatch_ended s) /\
      receiveRunning = negb (receive_ended s)
  | SDrain _ _ => dispatch_ended s = true /\ receive_ended s = true
  | SReturn _ =>
      dispatch_ended s = true /\ receive_ended s = true /\
      outstanding s = [] /\ outstanding_closed s = true
  end.

(** The log of the staging directory read from its start: each temporary
    file is followed by its removal or its renaming, the last one
    possibly by nothing yet. *)
Fixpoint paired (log : list fs_event) : bool :=
  match log with
  | [] => true
  | FsTempFile name :: rest =>
      match rest with
      | [] => true
      | FsRemove old _ :: rest' | FsRename old _ _ :: rest' =>
          (name =? old) && paired rest'
      | FsTempFile _ :: _ => false
      end
  | FsRemove _ _ :: _ | FsRename _ _ _ :: _ => false
  end.

(** The same, every temporary file being settled. *)
Inductive complete_log : list fs_event -> Prop :=
| complete_nil : complete_log []
| complete_remove log name ok :
    complete_log log ->
    complete_log (log ++ [FsTempFile name; FsRemove name ok])
| complete_rename log name newname ok :
    complete_log log ->
    complete_log (log ++ [FsTempFile name; FsRename name newname ok]).

Definition log_in_step (s : state) : Prop :=
  match current_feed (rpc s) with
  | Some f =>
      exists log,
        complete_log log /\ fslog s = (log ++ [FsTempFile (target f)])%list
  | None => complete_log (fslog s)
  end.

(** [burnRemainingOperations] over the answers the stream gives to the
    successive calls of Decode; [None] when the answers run out before the
    loop has ended (Decode blocks).  The result is the error returned and
    the answers left for the calls that follow. *)
Fixpoint burnRemainingOperations (stream : list (string + response))
  : option (error * list (string + response)) :=
  match stream with
  | [] => None
  | inl e :: rest => Some (Some e, rest)
  | inr resp :: rest =>
      if resp_Done resp then Some (None, rest)
      else burnRemainingOperations rest
  end.

(** A decoded response that carries an operation. *)
Definition carries_operation (r : string + response) : bool :=
  match r with
  | inr resp => negb (resp_Done resp)
  | inl _ => false
  end.









(** ** Runs used as examples *)

Module Examples.

Definition client : Client := mkClient "/srv/sync" "/srv/staging".

(** The state a run ends in (the initial state if it cannot be taken). *)
Definition final (c : Client) (ls : list label) (paths : list Path) : state :=
  match run c ls (initial paths) with
  | Some s => s
  | None => initial paths
  end.

Definition op (n : Operation) : string + response :=
  inr (mkResponse n false).
Definition done : string + response := inr (mkResponse 0 true).

(** One path dispatched without incident: base opened, signature
    computed, request encoded, record enqueued. *)
Definition dispatch_one : list label :=
  [DispOpen true; DispSignature (Some [1; 2]); DispEncode None; DispEnqueue].

(** The same up to the select statement. *)
Definition dispatch_to_select : list label :=
  [DispOpen true; DispSignature (Some [1; 2]); DispEncode None].

(** One path received without incident up to the commit: one operation
    forwarded, Done, ApplyDelta returns nil. *)
Definition receive_to_commit (suffix : string) : list label :=
  [RecvDequeue; RecvTempFile (inr suffix); RecvDecode (op 7); RecvForward;
   RecvDecode done; RecvCloseOperations; ApplyReturn None; RecvAwaitApply].

(** The same with the commit, the rename succeeding. *)
Definition receive_one (suffix : string) (sum : list byte) : list label :=
  (receive_to_commit suffix ++ [RecvCommit sum true])%list.

(** The paths of the test of the repository. *)
Definition go : Path := ["go"].
Definition godoc : Path := ["godoc"].
Definition gofmt : Path := ["gofmt"].

(** ApplyDelta fails on the first operation of "go".  The responder
    answers three operations and Done for "go", then the operations of
    "godoc". *)
Definition apply_fails_first : list label :=
  (dispatch_one ++ dispatch_one ++ [DispClose; StageDispatchDone] ++
   [RecvDequeue; RecvTempFile (inr "1"); RecvDecode (op 6); RecvForward;
    ApplyReturn (Some "write failed");
    RecvDecode (op 7); RecvApplyExited; RecvBurn (op 8); RecvBurn done;
    RecvDecode (op 9)])%list.

(** TempFile fails for "go" and Stage raises the cancellation of dispatch,
    which has reached the select statement for "godoc". *)
Definition cancel_pending_at_godoc : list label :=
  (dispatch_one ++
   [RecvDequeue; RecvTempFile (inl "no space left on device");
    StageReceiveDone] ++
   dispatch_to_select)%list.

(** Encode fails for the only path. *)
Definition encode_fails : list label :=
  [DispOpen true; DispSignature (Some [1; 2]);
   DispEncode (Some "broken pipe");
   StageDispatchDone; RecvCancelled; StageReceiveDone].

(** Eight paths; the first is received and committed, Decode fails in the
    feeding loop of the second.  Dispatch fills the queue, sees the
    cancellation at the seventh path and goes on to the eighth. *)
Definition eight : list Path :=
  [go; godoc; gofmt; ["4"]; ["5"]; ["6"]; ["7"]; ["8"]].

Definition decode_fails_second : list label :=
  (dispatch_one ++ receive_one "1" [xab; x01]%byte ++
   dispatch_one ++
   [RecvDequeue; RecvTempFile (inr "2"); RecvDecode (inl "unexpected EOF");
    RecvCloseOperations; ApplyReturn None; RecvAwaitApply;
    RecvCommit [] true; StageReceiveDone] ++
   dispatch_one ++ dispatch_one ++ dispatch_one ++ dispatch_one ++
   dispatch_to_select ++ [DispCancelled] ++ dispatch_to_select)%list.

(** One path, nothing fails. *)
Definition all_succeeds : list label :=
  (dispatch_one ++ [DispClose] ++ receive_one "1" [xab; x01]%byte ++
   [RecvClosed; StageDispatchDone; StageReceiveDone; StageReturn])%list.

(** One path, nothing fails but the final rename. *)
Definition rename_fails : list label :=
  (dispatch_one ++ [DispClose] ++ receive_to_commit "1" ++
   [RecvCommit [xab; x01]%byte false] ++
   [RecvClosed; StageDispatchDone; StageReceiveDone; StageReturn])%list.

(** One path, nothing has failed, receive is about to commit. *)
Definition before_commit : list label :=
  (dispatch_one ++ [DispClose] ++ receive_to_commit "1")%list.

Definition at_commit : state :=
  Eval vm_compute in final client before_commit [go].

(** The base of "go" cannot be opened and its signature fails; the base of
    "godoc" cannot be opened either and an empty one stands in. *)
Definition bases_missing : list label :=
  ([DispOpen false; DispSignature None] ++
   [DispOpen false; DispSignature (Some []); DispEncode None; DispEnqueue] ++
   [DispClose] ++ receive_one "1" [xab; x01]%byte ++
   [RecvClosed; StageDispatchDone; StageReceiveDone; StageReturn])%list.

(** Five paths dispatched while receive has not started. *)
Definition five : list Path := [go; godoc; gofmt; ["4"]; ["5"]].

Definition queue_filled : list label :=
  (dispatch_one ++ dispatch_one ++ dispatch_one ++ dispatch_one ++
   dispatch_to_select)%list.

Definition after_commit_all_succeeds : list label :=
  [RecvClosed; StageDispatchDone; StageReceiveDone; StageReturn].

Definition all_succeeds_end : state :=
  Eval vm_compute in final client all_succeeds [go].

Definition encode_failed_unsent : state :=
  Eval vm_compute in final client (firstn 3 encode_fails) [go].

Definition queue_full : state :=
  Eval vm_compute in final client queue_filled five.

Definition bases_missing_end : state :=
  Eval vm_compute in final client bases_missing [go; godoc].

Definition encode_failed_end : state :=
  Eval vm_compute in final client encode_fails [go].

(** "go" alone is dispatched; ApplyDelta fails on its first operation, and
    receive, after the burn, has decoded the first operation of the next
    path. *)
Definition apply_fails_receiving : list label :=
  (dispatch_one ++
   [RecvDequeue; RecvTempFile (inr "1"); RecvDecode (op 6); RecvForward;
    ApplyReturn (Some "write failed");
    RecvDecode (op 7); RecvApplyExited; RecvBurn (op 8); RecvBurn done;
    RecvDecode (op 9)])%list.

(** What dispatch and Stage can still do after that. *)
Definition dispatch_goes_on : list label :=
  (dispatch_one ++ [DispClose; StageDispatchDone])%list.

Definition apply_failed_feed : feed :=
  mkFeed (mkDispatched go (OsFile 0)) "/srv/staging/staging1"
    (Some "write failed") None true.

Definition apply_failed_forwarding : state :=
  Eval vm_compute in final client apply_fails_receiving [go; godoc].

Definition apply_failed_end : state :=
  Eval vm_compute in
    final client (apply_fails_receiving ++ dispatch_goes_on) [go; godoc].

End Examples.

(** * Properties *)

(** ** The library functions on examples *)

Example clean_1 : Filepath.Clean "/srv//sync/./a/../b/" = "/srv/sync/b".
Proof. reflexivity. Qed.
Example clean_2 : Filepath.Clean "../../a/.." = "../..".
Proof. reflexivity. Qed.
Example clean_3 : Filepath.Clean "/.." = "/".
Proof. reflexivity. Qed.
Example join_1 : Filepath.Join [""; "a"; ""; "b"] = "a/b".
Proof. reflexivity. Qed.
Example atr_1 : AppendedToRoot ["bin"; "go"] "/srv/sync" = "/srv/sync/bin/go".
Proof. reflexivity. Qed.
Example atr_2 : AppendedToRoot [".."] "/srv/sync" = "/srv".
Proof. reflexivity. Qed.
Example hex_1 : Fmt.Sprintf_x [x00; xff; x1a]%byte = "00ff1a".
Proof. reflexivity. Qed.

(** ** Reasoning about steps and runs *)

Arguments Filepath.Join : simpl never.
Arguments AppendedToRoot : simpl never.
Arguments Fmt.Sprintf_x : simpl never.

(** A run on given labels is evaluated. *)
Ltac run_eval := vm_compute; reflexivity.

Ltac break_match H :=
  repeat match type of H with
    | context [match ?x with _ => _ end] =>
        (is_var x; destruct x) || destruct x eqn:?; try discriminate H
    end.

(** Case analysis on an enabled step: the state is taken apart first, so
    that every test of [step] is a test on a variable. *)
Ltac step_inv H :=
  match type of H with
  | step _ ?l ?s = Some _ =>
      destruct s; destruct l; unfold step in H; simpl in H; break_match H;
      try discriminate H; injection H as H; subst; simpl in *
  end.

Lemma run_app c ls1 ls2 s :
  run c (ls1 ++ ls2)%list s =
  match run c ls1 s with Some s' => run c ls2 s' | None => None end.
Proof.
  revert s; induction ls1 as [|l ls1 IH]; intros s; simpl; [reflexivity|].
  destruct (step c l s); auto.
Qed.

(** A property kept by every step holds along every run. *)
Lemma run_invariant c (P : state -> Prop) :
  (forall l s s', P s -> step c l s = Some s' -> P s') ->
  forall ls s s', P s -> run c ls s = Some s' -> P s'.
Proof.
  intros Hstep ls; induction ls as [|l ls IH]; intros s s' Hs Hrun;
    simpl in Hrun.
  - injection Hrun as <-; exact Hs.
  - destruct (step c l s) as [s1|] eqn:E; [|discriminate].
    eapply IH; [|exact Hrun]. eapply Hstep; eauto.
Qed.

(** From a stuck state the only run is the empty one. *)
Lemma stuck_run c s ls s' :
  stuck c s -> run c ls s = Some s' -> ls = [] /\ s' = s.
Proof.
  intros Hs Hrun. destruct ls as [|l ls]; simpl in Hrun.
  - injection Hrun as <-; auto.
  - rewrite Hs in Hrun; discriminate.
Qed.

(** *** The hand-off queue *)

Lemma step_outstanding_bound c l s s' :
  List.length (outstanding s) <= maxOutstandingStagingRequests ->
  step c l s = Some s' ->
  List.length (outstanding s') <= maxOutstandingStagingRequests.
Proof.
  intros Hb H. step_inv H; try assumption; try lia.
  rewrite length_app; simpl.
  match goal with E : Nat.ltb _ _ = true |- _ => apply Nat.ltb_lt in E end.
  lia.
Qed.

Lemma enqueue_blocked_when_full c s :
  List.length (outstanding s) = maxOutstandingStagingRequests ->
  step c DispEnqueue s = None.
Proof.
  intros Hfull. unfold step. destruct (dpc s); try reflexivity.
  rewrite Hfull, Nat.ltb_irrefl. reflexivity.
Qed.

(** At the select statement with the queue full and no cancellation
    pending, whatever step is taken leaves dispatch where it is. *)
Lemma dispatch_blocked_when_full c s path rest base l s' :
  List.length (outstanding s) = maxOutstandingStagingRequests ->
  dispatchCancel s = false ->
  dpc s = DSelect path rest base ->
  step c l s = Some s' ->
  dpc s' = DSelect path rest base.
Proof.
  intros Hfull Hcancel Hpc H.
  destruct s; simpl in Hfull, Hcancel, Hpc; subst.
  destruct l; unfold step in H; simpl in H; break_match H;
    try discriminate H; try (injection H as H; subst; reflexivity).
  match goal with
  | E : Nat.ltb _ _ = true |- _ =>
      rewrite Hfull, Nat.ltb_irrefl in E; discriminate E
  end.
Qed.

(** *** Errors that reach [Stage] *)

Lemma step_quiet c l s s' :
  session_fatal l = false ->
  quiet s = true ->
  step c l s = Some s' ->
  quiet s' = true.
Proof.
  intros Hl Hq H. unfold quiet in *.
  apply andb_true_iff in Hq as [Hq Hs].
  apply andb_true_iff in Hq as [Hd Hr].
  step_inv H; try discriminate Hl;
    repeat (apply andb_true_iff; split); simpl in *;
    try assumption; try reflexivity.
  - unfold after_commit. destruct (decodeError f); [discriminate Hr|reflexivity].
  - apply andb_true_iff in Hs as [_ Hre].
    unfold stage_wait; destruct receiveRunning; simpl; rewrite Hd, Hre; reflexivity.
  - apply andb_true_iff in Hs as [Hde _].
    unfold stage_wait; destruct dispatchRunning; simpl; rewrite Hr, Hde; reflexivity.
  - apply andb_true_iff in Hs as [Hde _]. exact Hde.
  - apply andb_true_iff in Hs as [_ Hre]. exact Hre.
  - apply andb_true_iff in Hs as [Hde Hre].
    destruct dispatchError; [discriminate Hde|].
    destruct receiveError; [discriminate Hre|]. reflexivity.
Qed.

Lemma run_quiet c ls s s' :
  existsb session_fatal ls = false ->
  quiet s = true ->
  run c ls s = Some s' ->
  quiet s' = true.
Proof.
  revert s; induction ls as [|l ls IH]; intros s Hls Hq Hrun; simpl in *.
  - injection Hrun as <-; exact Hq.
  - apply orb_false_iff in Hls as [Hl Hls].
    destruct (step c l s) as [s1|] eqn:E; [|discriminate].
    apply (IH s1 Hls); [|exact Hrun].
    exact (step_quiet c l s Hl Hq E).
Qed.

(** *** Lower-case hexadecimal names *)

Lemma hex_byte_lower b :
  forallb lower_hex (list_ascii_of_string (Fmt.hex_byte b)) = true.
Proof. destruct b; reflexivity. Qed.

Lemma hex_byte_length b : String.length (Fmt.hex_byte b) = 2.
Proof. reflexivity. Qed.

Lemma list_ascii_of_string_app s1 s2 :
  list_ascii_of_string (s1 ++ s2) =
  (list_ascii_of_string s1 ++ list_ascii_of_string s2)%list.
Proof. induction s1 as [|ch s1 IH]; simpl; [reflexivity|]. now rewrite IH. Qed.

Lemma concat_empty_sep l :
  String.concat "" l = fold_right String.append "" l.
Proof.
  induction l as [|x [|y l] IH]; simpl in *.
  - reflexivity.
  - induction x; simpl; congruence.
  - now rewrite IH.
Qed.

Lemma Sprintf_x_lower bs :
  forallb lower_hex (list_ascii_of_string (Fmt.Sprintf_x bs)) = true.
Proof.
  unfold Fmt.Sprintf_x. rewrite concat_empty_sep.
  induction bs as [|b bs IH]; [reflexivity|].
  cbn [map fold_right]. rewrite list_ascii_of_string_app, forallb_app, IH.
  now rewrite hex_byte_lower.
Qed.

Lemma Sprintf_x_length bs :
  String.length (Fmt.Sprintf_x bs) = 2 * List.length bs.
Proof.
  unfold Fmt.Sprintf_x. rewrite concat_empty_sep.
  induction bs as [|b bs IH]; [reflexivity|].
  cbn [map fold_right List.length]. cbn [Fmt.hex_byte append String.length].
  rewrite IH. lia.
Qed.

(** *** filepath.Join of a directory and a file name *)

Import Filepath.

Lemma elements_not_nil s : elements s <> [].
Proof.
  destruct s as [|ch s]; simpl; [discriminate|].
  destruct (Ascii.eqb ch Separator); [discriminate|].
  destruct (elements s); discriminate.
Qed.

Lemma elements_no_separator e : no_separator e = true -> elements e = [e].
Proof.
  unfold no_separator. induction e as [|ch e IH]; simpl; [reflexivity|].
  intros H. apply andb_true_iff in H as [Hc He].
  apply negb_true_iff in Hc. rewrite Hc, (IH He). reflexivity.
Qed.

Lemma elements_app_sep a b :
  elements (a ++ String Separator b) = (elements a ++ elements b)%list.
Proof.
  induction a as [|ch a IH]; simpl.
  - reflexivity.
  - rewrite IH. destruct (Ascii.eqb ch Separator); [reflexivity|].
    destruct (elements a) eqn:E; [exfalso; eapply elements_not_nil; eauto|].
    reflexivity.
Qed.

Lemma elements_each_no_separator s :
  Forall (fun e => no_separator e = true) (elements s).
Proof.
  induction s as [|ch s IH]; simpl.
  - constructor; [reflexivity|constructor].
  - destruct (Ascii.eqb ch Separator) eqn:Hc.
    + constructor; [reflexivity|exact IH].
    + destruct (elements s) as [|e es]; [constructor; [|constructor]|].
      * unfold no_separator; simpl. now rewrite Hc.
      * inversion IH; subst. constructor; [|assumption].
        unfold no_separator in *; simpl. now rewrite Hc.
Qed.

Lemma clean_element_kept rooted out e :
  no_separator e = true ->
  Forall (fun x => kept x = true) out ->
  Forall (fun x => kept x = true) (clean_element rooted out e).
Proof.
  intros He Hout. unfold clean_element.
  destruct (e =? "") eqn:E1; simpl; [exact Hout|].
  destruct (e =? ".") eqn:E2; simpl; [exact Hout|].
  assert (Hk : kept e = true) by (unfold kept; now rewrite E1, E2, He).
  destruct (e =? "..").
  - destruct out as [|top below].
    + destruct rooted; [constructor|]. constructor; [exact Hk|constructor].
    + destruct (top =? ".."); [constructor; assumption|].
      inversion Hout; assumption.
  - constructor; assumption.
Qed.

Lemma fold_clean_kept rooted es : forall out,
  Forall (fun e => no_separator e = true) es ->
  Forall (fun x => kept x = true) out ->
  Forall (fun x => kept x = true) (fold_left (clean_element rooted) es out).
Proof.
  induction es as [|e es IH]; intros out Hes Hout; simpl; [exact Hout|].
  inversion Hes; subst. apply IH; [assumption|].
  apply clean_element_kept; assumption.
Qed.

Lemma append_assoc a b c : (a ++ b) ++ c = a ++ b ++ c.
Proof. induction a as [|ch a IH]; simpl; [reflexivity|]. now rewrite IH. Qed.

Lemma concat_snoc sep l x :
  String.concat sep (l ++ [x]) =
  match l with
  | [] => x
  | _ => String.concat sep l ++ sep ++ x
  end.
Proof.
  induction l as [|a l IH]; [reflexivity|].
  destruct l as [|b l].
  - simpl. reflexivity.
  - change (String.concat sep ((a :: b :: l) ++ [x]))
      with (a ++ sep ++ String.concat sep ((b :: l) ++ [x])).
    rewrite IH.
    change (String.concat sep (a :: b :: l))
      with (a ++ sep ++ String.concat sep (b :: l)).
    rewrite !append_assoc. reflexivity.
Qed.

Lemma kept_first e : kept e = true ->
  exists ch rest, e = String ch rest /\ Ascii.eqb ch Separator = false.
Proof.
  unfold kept, no_separator. destruct e as [|ch rest]; simpl; [discriminate|].
  intros H. apply andb_true_iff in H as [_ H].
  apply andb_true_iff in H as [H _]. apply negb_true_iff in H. eauto.
Qed.

(** A body made of kept elements is none of "", "." and "/". *)
Lemma body_proper l :
  l <> [] -> Forall (fun x => kept x = true) l ->
  let body := String.concat "/" l in
  (body =? "") = false /\ (body =? ".") = false /\
  is_rooted body = false.
Proof.
  intros Hl Hk. destruct l as [|x l]; [congruence|]. clear Hl.
  inversion Hk as [|? ? Hx Hl']; subst.
  destruct (kept_first x Hx) as (ch & rest & -> & Hch).
  destruct l as [|y l].
  - simpl. split; [reflexivity|]. split; [|exact Hch].
    unfold kept in Hx. apply andb_true_iff in Hx as [Hx _].
    apply andb_true_iff in Hx as [_ Hx]. apply negb_true_iff in Hx. exact Hx.
  - change (String.concat "/" (String ch rest :: y :: l))
      with (String ch (rest ++ "/" ++ String.concat "/" (y :: l))).
    split; [reflexivity|]. split; [|exact Hch].
    apply String.eqb_neq. intros H. injection H as _ H.
    destruct rest; discriminate H.
Qed.

Lemma plain_clean_element name rooted out :
  plain_element name = true -> clean_element rooted out name = name :: out.
Proof.
  unfold plain_element, clean_element. intros Hp.
  apply andb_true_iff in Hp as [Hp _].
  apply andb_true_iff in Hp as [Hp Hdd].
  apply andb_true_iff in Hp as [Hne Hd].
  apply negb_true_iff in Hne, Hd, Hdd. now rewrite Hne, Hd, Hdd.
Qed.

Lemma plain_no_separator name : plain_element name = true -> no_separator name = true.
Proof. unfold plain_element. intros Hp. now apply andb_true_iff in Hp as [_ Hp]. Qed.

Lemma plain_not_empty name : plain_element name = true -> (name =? "") = false.
Proof.
  unfold plain_element. intros Hp.
  apply andb_true_iff in Hp as [Hp _].
  apply andb_true_iff in Hp as [Hp _].
  apply andb_true_iff in Hp as [Hne _]. now apply negb_true_iff in Hne.
Qed.

Lemma plain_not_rooted name : plain_element name = true -> is_rooted name = false.
Proof.
  intros Hp. apply plain_no_separator in Hp.
  destruct name as [|ch r]; [reflexivity|]. simpl.
  unfold no_separator in Hp. simpl in Hp.
  apply andb_true_iff in Hp as [Hp _]. now apply negb_true_iff in Hp.
Qed.

(** The elements [Clean] keeps of [dir/name] are those of [dir] and [name]. *)
Lemma fold_clean_entry rooted dir name :
  plain_element name = true ->
  fold_left (clean_element rooted) (elements (dir ++ String Separator name)) []
  = name :: fold_left (clean_element rooted) (elements dir) [].
Proof.
  intros Hp.
  pose proof (plain_no_separator name Hp) as Hns.
  rewrite elements_app_sep, (elements_no_separator name Hns).
  rewrite fold_left_app. cbn [fold_left]. now apply plain_clean_element.
Qed.

Lemma Clean_plain name : plain_element name = true -> Clean name = name.
Proof.
  intros Hp. unfold Clean.
  pose proof (plain_no_separator name Hp) as Hns.
  pose proof (plain_not_empty name Hp) as Hne.
  pose proof (plain_not_rooted name Hp) as Hnr.
  rewrite Hne, Hnr, (elements_no_separator name Hns).
  cbn [fold_left]. rewrite plain_clean_element by exact Hp.
  cbn [rev app String.concat]. now rewrite Hne.
Qed.

Lemma Clean_entry dir name :
  (dir =? "") = false ->
  plain_element name = true ->
  Clean (dir ++ String Separator name) = child (Clean dir) name.
Proof.
  intros Hdir Hp.
  assert (Hnz : (dir ++ String Separator name =? "") = false)
    by (destruct dir; [discriminate Hdir|reflexivity]).
  assert (Hrt : is_rooted (dir ++ String Separator name) = is_rooted dir)
    by (destruct dir; [discriminate Hdir|reflexivity]).
  pose proof (plain_not_empty name Hp) as Hne.
  unfold Clean. rewrite Hnz, Hrt, Hdir. cbv zeta.
  rewrite fold_clean_entry by exact Hp.
  set (out := fold_left (clean_element (is_rooted dir)) (elements dir) []).
  assert (Hout : Forall (fun x => kept x = true) (rev out)).
  { apply Forall_rev. apply fold_clean_kept;
      [apply elements_each_no_separator|constructor]. }
  cbn [rev]. rewrite concat_snoc.
  destruct (rev out) as [|x l] eqn:Hrev.
  - cbn [String.concat]. rewrite Hne.
    destruct (is_rooted dir); reflexivity.
  - destruct (body_proper (l := x :: l)) as (Hb1 & Hb2 & Hb3);
      [discriminate|exact Hout|].
    cbv zeta in Hb1, Hb2, Hb3.
    set (body := String.concat "/" (x :: l)) in *.
    destruct body as [|ch r] eqn:Hbody; [discriminate Hb1|].
    cbn [is_rooted] in Hb3.
    destruct (is_rooted dir).
    + unfold child. cbn. reflexivity.
    + change ((String ch r ++ "/" ++ name) =? "") with false.
      rewrite Hb1. unfold child. rewrite Hb1, Hb2. cbn [orb].
      assert (Hs : (String ch r =? "/") = false).
      { apply String.eqb_neq. intros H. injection H as -> _.
        discriminate Hb3. }
      rewrite Hs. reflexivity.
Qed.

Lemma Join_child dir name :
  plain_element name = true ->
  Join [dir; name] = child (Join [dir]) name.
Proof.
  intros Hp. pose proof (plain_not_empty name Hp) as Hne.
  unfold Join. destruct (dir =? "") eqn:Hdir.
  - rewrite Hne. cbn [String.concat].
    rewrite Clean_plain by exact Hp. reflexivity.
  - cbn [String.concat]. now apply Clean_entry.
Qed.

(** *** Hexadecimal names are file names *)

Lemma lower_hex_ordinary ch :
  lower_hex ch = true ->
  Ascii.eqb ch "/" = false /\ Ascii.eqb ch "." = false.
Proof.
  unfold lower_hex. cbn [existsb Fmt.hex_digits list_ascii_of_string].
  rewrite !orb_true_iff.
  intros H.
  repeat match type of H with
         | _ \/ _ => destruct H as [H|H]
         end;
    try discriminate H; apply Ascii.eqb_eq in H; subst ch; split; reflexivity.
Qed.

Lemma lower_hex_no_separator name :
  forallb lower_hex (list_ascii_of_string name) = true ->
  no_separator name = true.
Proof.
  unfold no_separator. induction name as [|ch r IH]; simpl; [reflexivity|].
  intros H. apply andb_true_iff in H as [Hc Hr].
  destruct (lower_hex_ordinary ch Hc) as [Hs _].
  rewrite (IH Hr). unfold Filepath.Separator. rewrite Hs. reflexivity.
Qed.

Lemma lower_hex_plain name :
  forallb lower_hex (list_ascii_of_string name) = true ->
  name <> "" ->
  plain_element name = true.
Proof.
  intros H Hne. unfold plain_element.
  rewrite (lower_hex_no_separator name H).
  destruct name as [|ch r]; [congruence|].
  simpl in H. apply andb_true_iff in H as [Hc _].
  destruct (lower_hex_ordinary ch Hc) as [_ Hd].
  cbn [String.eqb]. rewrite Hd. reflexivity.
Qed.

Lemma Sprintf_x_plain sum :
  sum <> [] -> plain_element (Fmt.Sprintf_x sum) = true.
Proof.
  intros Hsum. apply lower_hex_plain; [apply Sprintf_x_lower|].
  intros E. apply (f_equal String.length) in E.
  rewrite Sprintf_x_length in E. destruct sum; [congruence|discriminate E].
Qed.

(** *** The staging directory changes at two places only *)

Lemma step_fslog c l s s' :
  step c l s = Some s' ->
  fslog s' = fslog s \/
  (exists name, fslog s' = (fslog s ++ [FsTempFile name])%list) \/
  (exists f sum ok,
      rpc s = RCommit f /\ l = RecvCommit sum ok /\
      fslog s' = (fslog s ++ [commit c f sum ok])%list).
Proof.
  intros H. step_inv H; try (left; reflexivity).
  - right; left; eauto.
  - right; right. do 3 eexists. repeat split; reflexivity.
Qed.

(** ** What the code guarantees *)

(** When an iteration of receive reaches its commit, the temporary file
    of the dequeued path is renamed exactly when neither [decodeError] nor
    [applyError] is set, and removed otherwise; the new name is the value
    of the hash printed with "%x", two lower-case hexadecimal digits per
    byte, joined to the staging directory, of which it is an entry as soon
    as the hash value is not empty.  No other step of the pipeline renames
    or removes a file. *)
Lemma commit_rename_iff_no_error (c : Client) (s : state) (f : feed)
    (sum : list byte) (ok : bool) :
  rpc s = RCommit f ->
  (exists s' ev,
      step c (RecvCommit sum ok) s = Some s' /\
      fslog s' = (fslog s ++ [ev])%list /\
      (decodeError f = None /\ applyError f = None ->
       ev = FsRename (target f)
              (Filepath.Join [staging c; Fmt.Sprintf_x sum]) ok) /\
      (~ (decodeError f = None /\ applyError f = None) ->
       ev = FsRemove (target f) ok)) /\
  forallb lower_hex (list_ascii_of_string (Fmt.Sprintf_x sum)) = true /\
  String.length (Fmt.Sprintf_x sum) = 2 * List.length sum /\
  (sum <> [] ->
   Filepath.Join [staging c; Fmt.Sprintf_x sum]
   = child (Filepath.Join [staging c]) (Fmt.Sprintf_x sum)) /\
  (forall l s1 s2 old new b,
      step c l s1 = Some s2 ->
      fslog s2 = (fslog s1 ++ [FsRename old new b])%list \/
      fslog s2 = (fslog s1 ++ [FsRemove old b])%list ->
      exists f1 sum1, rpc s1 = RCommit f1 /\ l = RecvCommit sum1 b /\
                      old = target f1).
Proof.
  intros Hpc.
  split; [|split; [apply Sprintf_x_lower|split; [apply Sprintf_x_length|split;
    [intros Hsum; apply Join_child, Sprintf_x_plain, Hsum|]]]].
  - exists (set_rpc (after_commit f)
              (set_fslog (fslog s ++ [commit c f sum ok])%list s)),
           (commit c f sum ok).
    unfold step. rewrite Hpc. split; [reflexivity|]. split; [reflexivity|].
    unfold commit. split.
    + intros [-> ->]. reflexivity.
    + intros Hn. destruct (decodeError f); [reflexivity|].
      destruct (applyError f); [reflexivity|]. exfalso; auto.
  - intros l s1 s2 old new b Hstep Hlog.
    destruct (step_fslog c l s1 Hstep)
      as [E|[[name E]|(f1 & sum1 & ok1 & Hrpc & -> & E)]].
    + exfalso. rewrite E in Hlog.
      destruct Hlog as [Hlog|Hlog];
        apply (f_equal (@List.length fs_event)) in Hlog;
        rewrite length_app in Hlog; simpl in Hlog; lia.
    + exfalso. rewrite E in Hlog.
      destruct Hlog as [Hlog|Hlog]; apply app_inv_head in Hlog;
        discriminate Hlog.
    + rewrite E in Hlog. unfold commit in Hlog.
      exists f1, sum1.
      destruct Hlog as [Hlog|Hlog]; apply app_inv_head in Hlog;
        injection Hlog as Hev;
        destruct (decodeError f1); destruct (applyError f1);
        try discriminate Hev; injection Hev; intros; subst; auto.
Qed.

(** The commit of "go" after a run in which nothing failed. *)
Example commit_of_go :
  run Examples.client Examples.before_commit (initial [Examples.go])
    = Some Examples.at_commit /\
  exists s' ev,
    step Examples.client (RecvCommit [xab; x01]%byte true) Examples.at_commit
      = Some s' /\
    fslog s' = (fslog Examples.at_commit ++ [ev])%list /\
    ev = FsRename "/srv/staging/staging1" "/srv/staging/ab01" true.
Proof.
  split; [run_eval|].
  destruct (commit_rename_iff_no_error Examples.client Examples.at_commit
              [xab; x01]%byte true eq_refl)
    as [(s' & ev & Hstep & Hlog & Hren & _) _].
  exists s', ev. split; [exact Hstep|].
  split; [exact Hlog|]. exact (Hren (conj eq_refl eq_refl)).
Qed.

(** C7. Along every run of Stage the hand-off queue holds at most
    [maxOutstandingStagingRequests] = 4 records; when it holds 4 the
    enqueue of dispatch is not enabled, and unless a cancellation is
    pending dispatch stays at its select statement whatever else moves. *)
Theorem C7_outstanding_bounded (c : Client) (paths : list Path)
    (ls : list label) (s : state) :
  run c ls (initial paths) = Some s ->
  maxOutstandingStagingRequests = 4 /\
  List.length (outstanding s) <= 4 /\
  (List.length (outstanding s) = 4 ->
   step c DispEnqueue s = None /\
   (dispatchCancel s = false ->
    forall path rest base l s',
      dpc s = DSelect path rest base ->
      step c l s = Some s' ->
      dpc s' = DSelect path rest base)).
Proof.
  intros Hrun. split; [reflexivity|]. split.
  - apply (run_invariant c
             (fun s => List.length (outstanding s)
                       <= maxOutstandingStagingRequests))
      with (ls := ls) (s := initial paths); auto.
    + intros l s1 s2 Hb Hs. eapply step_outstanding_bound; eauto.
    + simpl. unfold maxOutstandingStagingRequests. lia.
  - intros Hfull. split.
    + apply enqueue_blocked_when_full. exact Hfull.
    + intros Hc path rest base l s' Hpc Hs.
      eapply dispatch_blocked_when_full; eauto.
Qed.

(** Four records queued, the fifth path at the select statement. *)
Lemma C7_outstanding_bounded_witness :
  run Examples.client Examples.queue_filled (initial Examples.five)
    = Some Examples.queue_full /\
  List.length (outstanding Examples.queue_full) = 4 /\
  step Examples.client DispEnqueue Examples.queue_full = None.
Proof.
  assert (Hrun : run Examples.client Examples.queue_filled
                   (initial Examples.five) = Some Examples.queue_full)
    by run_eval.
  split; [exact Hrun|]. split; [reflexivity|].
  exact (proj1 (proj2 (proj2
           (@C7_outstanding_bounded Examples.client Examples.five
              Examples.queue_filled Examples.queue_full Hrun)) eq_refl)).
Defined.

(** C9. The results of the rename and of the removal at the commit are
    dropped: the state after the commit is the same whether the call
    succeeded or failed, the log of the staging directory apart; and there
    is a run in which the only rename fails, nothing is staged, and Stage
    returns nil. *)
Theorem C9_commit_errors_discarded :
  (forall c s f sum,
      rpc s = RCommit f ->
      exists s1 s2,
        step c (RecvCommit sum true) s = Some s1 /\
        step c (RecvCommit sum false) s = Some s2 /\
        rpc s1 = after_commit f /\
        set_fslog [] s1 = set_fslog [] s2) /\
  (exists s,
      run Examples.client Examples.rename_fails (initial [Examples.go])
        = Some s /\
      spc s = SReturn None /\
      fslog s = [FsTempFile "/srv/staging/staging1";
                 FsRename "/srv/staging/staging1" "/srv/staging/ab01" false] /\
      staged_files (fslog s) = []).
Proof.
  split.
  - intros c s f sum Hpc. unfold step. rewrite Hpc.
    do 2 eexists. repeat split.
  - eexists. split; [run_eval|]. repeat split.
Qed.

Lemma C9_commit_errors_discarded_witness :
  exists s1 s2,
    step Examples.client (RecvCommit [xab; x01]%byte true) Examples.at_commit
      = Some s1 /\
    step Examples.client (RecvCommit [xab; x01]%byte false) Examples.at_commit
      = Some s2 /\
    rpc s1 = RSelect /\
    set_fslog [] s1 = set_fslog [] s2.
Proof.
  exact (proj1 C9_commit_errors_discarded Examples.client Examples.at_commit
           _ [xab; x01]%byte eq_refl).
Defined.

(** C10. AppendedToRoot joins the components and the root with
    filepath.Join and checks nothing: the path whose only component is ".."
    yields the parent of the root, which is not under the root, and that is
    the file dispatch opens. *)
Theorem C10_AppendedToRoot_escapes_root :
  (forall p root,
      AppendedToRoot p root = Filepath.Join [root; Filepath.Join p]) /\
  AppendedToRoot [".."] "/srv/sync" = "/srv" /\
  within "/srv/sync" (AppendedToRoot [".."] "/srv/sync") = false /\
  exists s,
    step (mkClient "/srv/sync" "/srv/staging") (DispOpen true)
      (initial [[".."]]) = Some s /\
    opened s = [("/srv", OsFile 0)].
Proof.
  split; [reflexivity|]. split; [reflexivity|]. split; [reflexivity|].
  eexists. split; reflexivity.
Qed.

(** *** Dispatch over paths whose signatures fail *)

(** One such path: the base obtained is closed and the loop goes on. *)
Lemma skip_one c s (p : Path) (ps : list Path) (ok : bool) :
  dpc s = DLoop (p :: ps) ->
  let base := if ok then OsFile (List.length (opened s))
              else EmptyReadSeekCloser (List.length (opened s)) in
  run c [DispOpen ok; DispSignature None] s =
  Some (set_dpc (DLoop ps)
          (set_opened (opened s ++ [(AppendedToRoot p (root c), base)])%list
             (set_closed (closed s ++ [base])%list s))).
Proof.
  intros Hpc. destruct s; simpl in Hpc; subst. reflexivity.
Qed.

(** Dispatch alone gets through any list of such paths: every base it
    obtained is closed, in order, and nothing else of the state changes. *)
Lemma skip_all_run c paths : forall oks s,
  List.length oks = List.length paths ->
  dpc s = DLoop paths ->
  exists s' news,
    run c (skip_all oks) s = Some s' /\
    s' = set_dpc (DLoop [])
           (set_opened (opened s ++ news)%list
              (set_closed (closed s ++ map snd news)%list s)) /\
    List.length news = List.length paths.
Proof.
  induction paths as [|p ps IH]; intros oks s Hlen Hpc.
  - destruct oks; [|discriminate Hlen].
    exists s, (@nil (string * readSeekCloser)). simpl. rewrite !app_nil_r.
    destruct s; simpl in *; subst. auto.
  - destruct oks as [|ok oks]; [discriminate Hlen|].
    injection Hlen as Hlen.
    change (skip_all (ok :: oks))
      with ([DispOpen ok; DispSignature None] ++ skip_all oks)%list.
    rewrite run_app, (skip_one c s ok Hpc).
    match goal with
    | |- context [run c (skip_all oks) ?s1] =>
        destruct (IH oks s1 Hlen eq_refl) as (s' & news & Hrun & Hs' & Hn)
    end.
    exists s'.
    exists ((AppendedToRoot p (root c),
             if ok then OsFile (List.length (opened s))
             else EmptyReadSeekCloser (List.length (opened s))) :: news).
    split; [exact Hrun|]. split; [|simpl; now rewrite Hn].
    rewrite Hs'. destruct s; simpl. rewrite <- !app_assoc. reflexivity.
Qed.

(** C8. A base that cannot be opened is replaced by an empty one and
    dispatch goes on to the signature; a signature that cannot be computed
    closes the base and dispatch goes on with the remaining paths, nothing
    being sent or enqueued for the path.  Neither is reported: a run in
    which no Encode, Decode or TempFile fails returns nil from Stage,
    whatever the opens and signatures did; and when every signature fails
    dispatch still gets through all the paths, closes every base it
    obtained and Stage returns nil. *)
Theorem C8_per_path_failures_absorbed (c : Client) :
  (forall s path rest,
      dpc s = DLoop (path :: rest) ->
      exists s',
        step c (DispOpen false) s = Some s' /\
        dpc s' = DSignature path rest
                   (EmptyReadSeekCloser (List.length (opened s))) /\
        closed s' = closed s) /\
  (forall s path rest base,
      dpc s = DSignature path rest base ->
      exists s',
        step c (DispSignature None) s = Some s' /\
        dpc s' = DLoop rest /\
        closed s' = (closed s ++ [base])%list /\
        sent s' = sent s /\ outstanding s' = outstanding s) /\
  (forall paths ls s,
      run c ls (initial paths) = Some s ->
      existsb session_fatal ls = false ->
      returned s = true ->
      spc s = SReturn None) /\
  (forall paths oks,
      List.length oks = List.length paths ->
      exists s,
        run c (skip_all oks ++
               [DispClose; StageDispatchDone; RecvClosed; StageReceiveDone;
                StageReturn])%list (initial paths) = Some s /\
        spc s = SReturn None /\
        List.length (bases s) = List.length paths /\
        closed s = bases s /\
        sent s = [] /\ fslog s = []).
Proof.
  split; [|split; [|split]].
  - intros s path rest Hpc. unfold step. rewrite Hpc.
    eexists. split; [reflexivity|]. split; reflexivity.
  - intros s path rest base Hpc. unfold step. rewrite Hpc.
    eexists. split; [reflexivity|]. repeat split.
  - intros paths ls s Hrun Hls Hret.
    assert (Hq : quiet s = true)
      by (eapply run_quiet; [exact Hls| |exact Hrun]; reflexivity).
    unfold quiet in Hq. unfold returned in Hret.
    destruct (spc s) as [| |result]; try discriminate Hret.
    apply andb_true_iff in Hq as [_ Hq]. simpl in Hq.
    destruct result; [discriminate Hq|reflexivity].
  - intros paths oks Hlen.
    destruct (@skip_all_run c paths oks (initial paths) Hlen eq_refl)
      as (s' & news & Hrun & Hs' & Hn).
    exists (mkState DExit RExit ANone (SReturn None) [] true false false None
              news (map snd news) [] []).
    split.
    { rewrite run_app, Hrun, Hs'. vm_compute. reflexivity. }
    split; [reflexivity|]. split; [|repeat split].
    unfold bases. simpl. now rewrite length_map.
Qed.

(** The run [bases_missing]: both opens fail, the signature of "go" fails,
    "godoc" is rebuilt against the empty base, and Stage returns nil. *)
Lemma C8_per_path_failures_absorbed_witness :
  run Examples.client Examples.bases_missing
    (initial [Examples.go; Examples.godoc]) = Some Examples.bases_missing_end /\
  spc Examples.bases_missing_end = SReturn None /\
  bases Examples.bases_missing_end
    = [EmptyReadSeekCloser 0; EmptyReadSeekCloser 1] /\
  staged_files (fslog Examples.bases_missing_end) = ["/srv/staging/ab01"].
Proof.
  assert (Hrun : run Examples.client Examples.bases_missing
                   (initial [Examples.go; Examples.godoc])
                 = Some Examples.bases_missing_end)
    by run_eval.
  split; [exact Hrun|]. split; [|split; reflexivity].
  exact (proj1 (proj2 (proj2 (C8_per_path_failures_absorbed Examples.client)))
           _ _ _ Hrun eq_refl eq_refl).
Defined.

(** ** Where the code departs from its specification *)

(** *** The queue is closed by dispatch only, at the end of its loop *)

Lemma step_open_while_dispatching c l s s' :
  (dispatching (dpc s) = true -> outstanding_closed s = false) ->
  step c l s = Some s' ->
  dispatching (dpc s') = true -> outstanding_closed s' = false.
Proof.
  intros Hinv H. step_inv H; intros Hd; try discriminate Hd; auto.
Qed.

Lemma step_returned_closed c l s s' :
  (returned s = true -> outstanding_closed s = true) ->
  step c l s = Some s' ->
  returned s' = true -> outstanding_closed s' = true.
Proof.
  intros Hinv H. unfold returned in *.
  step_inv H; intros Hr; try discriminate Hr; auto;
    try (destruct dispatchRunning); try (destruct receiveRunning);
    try discriminate Hr; auto.
Qed.

Lemma step_queue_left_open c l s s' :
  queue_left_open s = true ->
  step c l s = Some s' ->
  queue_left_open s' = true.
Proof.
  intros Hq H. unfold queue_left_open in *.
  step_inv H; try discriminate Hq; try assumption;
    try (rewrite andb_false_r in Hq; discriminate Hq);
    try (destruct outstanding_closed0; [discriminate Hq|reflexivity]).
Qed.

Lemma encode_failure_leaves_queue_open c e s s' :
  (dispatching (dpc s) = true -> outstanding_closed s = false) ->
  step c (DispEncode (Some e)) s = Some s' ->
  queue_left_open s' = true.
Proof.
  intros Hinv H. unfold queue_left_open, step in *.
  destruct (dpc s) eqn:Hpc; try discriminate H.
  injection H as <-. simpl. rewrite Hinv; reflexivity.
Qed.

Lemma run_queue_left_open c ls s s' :
  queue_left_open s = true ->
  run c ls s = Some s' ->
  queue_left_open s' = true.
Proof.
  intros Hq Hrun.
  apply (run_invariant c (fun s => queue_left_open s = true))
    with (ls := ls) (s := s); auto.
  intros l s1 s2 H1 Hs. eapply step_queue_left_open; eauto.
Qed.

(** C3. Once an Encode has failed, dispatch has returned without closing
    the hand-off queue: from then on the queue is never closed, the range
    loop at the end of Stage cannot end, and Stage has not returned, however
    the run goes on. *)
Theorem C3_encode_failure_Stage_never_returns (c : Client)
    (paths : list Path) (ls : list label) (s : state) (e : string) :
  run c ls (initial paths) = Some s ->
  In (DispEncode (Some e)) ls ->
  returned s = false /\ outstanding_closed s = false /\
  step c StageReturn s = None.
Proof.
  intros Hrun Hin.
  destruct (in_split _ _ Hin) as (l1 & l2 & ->).
  rewrite run_app in Hrun.
  destruct (run c l1 (initial paths)) as [s0|] eqn:H0; [|discriminate].
  cbn [run] in Hrun.
  destruct (step c (DispEncode (Some e)) s0) as [s1|] eqn:H1; [|discriminate].
  assert (Hopen : dispatching (dpc s0) = true -> outstanding_closed s0 = false).
  { apply (run_invariant c
             (fun s => dispatching (dpc s) = true ->
                       outstanding_closed s = false))
      with (ls := l1) (s := initial paths); auto.
    intros l sa sb Ha Hs. eapply step_open_while_dispatching; eauto. }
  assert (Hq : queue_left_open s = true).
  { eapply run_queue_left_open; [|exact Hrun].
    eapply encode_failure_leaves_queue_open; eauto. }
  assert (Hret : returned s = true -> outstanding_closed s = true).
  { assert (Hs1 : run c (l1 ++ DispEncode (Some e) :: l2)%list (initial paths)
                  = Some s)
      by (rewrite run_app, H0; cbn [run]; rewrite H1; exact Hrun).
    apply (run_invariant c
             (fun s => returned s = true -> outstanding_closed s = true))
      with (ls := (l1 ++ DispEncode (Some e) :: l2)%list)
           (s := initial paths); auto; try discriminate.
    intros l sa sb Ha Hs. eapply step_returned_closed; eauto. }
  unfold queue_left_open in Hq. apply andb_true_iff in Hq as [Hq _].
  apply negb_true_iff in Hq.
  split; [|split; [exact Hq|]].
  - destruct (returned s); [|reflexivity].
    rewrite Hret in Hq; [discriminate Hq|reflexivity].
  - unfold step. destruct (spc s); try reflexivity.
    destruct (outstanding s); [|reflexivity]. rewrite Hq. reflexivity.
Qed.

(** Encode fails for "go": dispatch and receive have both ended, Stage is
    in its range loop over the open, empty queue, and nothing can move. *)
Lemma C3_encode_failure_Stage_never_returns_witness :
  run Examples.client Examples.encode_fails (initial [Examples.go])
    = Some Examples.encode_failed_end /\
  dpc Examples.encode_failed_end = DExit /\
  rpc Examples.encode_failed_end = RExit /\
  spc Examples.encode_failed_end = SDrain (Some "broken pipe") None /\
  outstanding Examples.encode_failed_end = [] /\
  (returned Examples.encode_failed_end = false /\
   outstanding_closed Examples.encode_failed_end = false /\
   step Examples.client StageReturn Examples.encode_failed_end = None).
Proof.
  assert (Hrun : run Examples.client Examples.encode_fails
                   (initial [Examples.go]) = Some Examples.encode_failed_end)
    by run_eval.
  split; [exact Hrun|]. do 4 (split; [reflexivity|]).
  refine (@C3_encode_failure_Stage_never_returns Examples.client
            [Examples.go] Examples.encode_fails Examples.encode_failed_end
            "broken pipe" Hrun _).
  simpl. auto.
Defined.

Lemma encode_failure_deadlock :
  exists s,
    run Examples.client Examples.encode_fails (initial [Examples.go])
      = Some s /\
    stuck Examples.client s /\ bases s = [OsFile 0] /\ closed s = [].
Proof.
  eexists. split; [run_eval|]. split; [|split; reflexivity].
  intros l; destruct l; reflexivity.
Qed.

(** *** ApplyDelta and the channel of its result *)

Lemma step_apply_consistent c l s s' :
  apply_consistent s -> step c l s = Some s' -> apply_consistent s'.
Proof.
  intros [H1 H2] H. unfold apply_consistent.
  step_inv H; (split; [intros Hne|intros f' Hf Hex]); simpl in *;
    try discriminate Hf;
    try (injection Hf as <-); simpl in *;
    try discriminate Hex;
    try (apply H1; assumption);
    try (eapply H2; eassumption);
    try (eapply H2; [reflexivity|assumption]);
    try congruence.
  all: try (destruct f; simpl in *; eapply H2; [reflexivity|assumption]).
  all: try (split; [apply H1|]; congruence).
  all: try (destruct (H2 _ Hf Hex) as [Hx _]; discriminate Hx).
  unfold after_commit in Hf. destruct (decodeError f); discriminate Hf.
Qed.

Lemma run_apply_consistent c paths ls s :
  run c ls (initial paths) = Some s -> apply_consistent s.
Proof.
  intros Hrun.
  apply (run_invariant c apply_consistent) with (ls := ls) (s := initial paths).
  - intros l s1 s2 H1 Hs. eapply step_apply_consistent; eauto.
  - split; [intros H; exfalso; apply H; reflexivity|intros f H; discriminate H].
  - exact Hrun.
Qed.

(** Once receive has taken the result of ApplyDelta in the select statement
    and is back forwarding an operation, it never moves again: nobody
    receives from [operations] and [applyErrors] stays empty. *)
Lemma forward_after_apply_exit_blocked c paths ls s f op :
  run c ls (initial paths) = Some s ->
  rpc s = RForward f op ->
  applyExited f = true ->
  forall l s', step c l s = Some s' -> rpc s' = RForward f op.
Proof.
  intros Hrun Hpc Hex l s' Hstep.
  destruct (run_apply_consistent _ _ _ Hrun) as [_ H2].
  destruct (H2 f) as [Ha He]; [rewrite Hpc; reflexivity|exact Hex|].
  destruct s; simpl in Hpc, Ha, He; subst.
  destruct l; unfold step in Hstep; simpl in Hstep; break_match Hstep;
    try discriminate Hstep; injection Hstep as <-; reflexivity.
Qed.

(** The burn ends, on Done, at the head of the feeding loop. *)
Lemma burn_returns_to_feeding_loop c s f op :
  rpc s = RBurn f ->
  run c [RecvBurn (inr (mkResponse 0 true));
         RecvDecode (inr (mkResponse op false))] s
  = Some (set_rpc (RForward (set_decodeError None f) op) s).
Proof.
  intros Hpc. destruct s; simpl in Hpc; subst. reflexivity.
Qed.

(** *** Ownership of the base handles *)

Lemma step_exclusive c l s s' :
  exclusive s -> step c l s = Some s' -> exclusive s'.
Proof.
  intros Hex H n. specialize (Hex n). unfold accounted in *.
  step_inv H;
    repeat match goal with
      | b : bool |- context [if ?b then _ else _] => destruct b
      | f : feed |- _ => destruct f; simpl in *
      | d : dispatchedRequest |- _ => destruct d; simpl in *
      end;
    unfold after_commit, stage_wait in *;
    repeat match goal with
      | |- context [match ?e with Some _ => _ | None => _ end] => destruct e
      end;
    simpl in *;
    rewrite ?map_app, ?count_occ_app, ?length_app in *; simpl in *;
    rewrite ?map_app, ?count_occ_app, ?length_app in *; simpl in *;
    repeat match goal with
      | |- context [Nat.eq_dec ?a ?b] => destruct (Nat.eq_dec a b)
      | H : context [Nat.eq_dec ?a ?b] |- _ => destruct (Nat.eq_dec a b)
      end; try lia.
Qed.

Lemma run_exclusive c paths ls s :
  run c ls (initial paths) = Some s -> exclusive s.
Proof.
  intros Hrun.
  apply (run_invariant c exclusive) with (ls := ls) (s := initial paths).
  - intros l s1 s2 H1 Hs. eapply step_exclusive; eauto.
  - intros n. split; [apply Nat.le_0_l|reflexivity].
  - exact Hrun.
Qed.

Lemma count_occ_base_number l b :
  count_occ readSeekCloser_eq_dec l b
  <= count_occ Nat.eq_dec (map base_number l) (base_number b).
Proof.
  induction l as [|x l IH]; simpl; [apply Nat.le_refl|].
  destruct (readSeekCloser_eq_dec x b) as [->|Hne].
  - destruct (Nat.eq_dec (base_number b) (base_number b)); [lia|congruence].
  - destruct (Nat.eq_dec (base_number x) (base_number b)); lia.
Qed.

(** No base is ever closed twice. *)
Lemma base_closed_at_most_once c paths ls s b :
  run c ls (initial paths) = Some s -> times_closed b s <= 1.
Proof.
  intros Hrun. destruct (run_exclusive _ _ _ Hrun (base_number b)) as [H _].
  unfold accounted, times_closed in *.
  rewrite !map_app, !count_occ_app in H.
  pose proof (count_occ_base_number (closed s) b). lia.
Qed.

(** The base of the iteration receive is in has not been closed. *)
Lemma base_in_use_not_closed c paths ls s f :
  run c ls (initial paths) = Some s ->
  current_feed (rpc s) = Some f ->
  times_closed (dr_base (dispatched f)) s = 0.
Proof.
  intros Hrun Hf.
  destruct (run_exclusive _ _ _ Hrun (base_number (dr_base (dispatched f))))
    as [H _].
  unfold accounted, times_closed in *.
  rewrite !map_app, !count_occ_app in H.
  pose proof (count_occ_base_number (closed s) (dr_base (dispatched f))).
  assert (Hheld : count_occ Nat.eq_dec
                    (map base_number (held_by_receive (rpc s)))
                    (base_number (dr_base (dispatched f))) = 1).
  { destruct (rpc s); simpl in Hf; try discriminate Hf;
      injection Hf as ->; simpl;
      (destruct (Nat.eq_dec (base_number (dr_base (dispatched f)))
                            (base_number (dr_base (dispatched f))));
       [reflexivity|congruence]). }
  lia.
Qed.

(** A base that is neither held nor closed stays so. *)
Lemma step_unaccounted c l s s' n :
  unaccounted n s -> step c l s = Some s' -> unaccounted n s'.
Proof.
  intros [Hn H0] H. unfold unaccounted, accounted in *.
  step_inv H;
    repeat match goal with
      | b : bool |- context [if ?b then _ else _] => destruct b
      | f : feed |- _ => destruct f; simpl in *
      | d : dispatchedRequest |- _ => destruct d; simpl in *
      end;
    unfold after_commit, stage_wait in *;
    repeat match goal with
      | |- context [match ?e with Some _ => _ | None => _ end] => destruct e
      end;
    simpl in *;
    rewrite ?map_app, ?count_occ_app, ?length_app in *; simpl in *;
    rewrite ?map_app, ?count_occ_app, ?length_app in *; simpl in *;
    repeat match goal with
      | |- context [Nat.eq_dec ?a ?b] => destruct (Nat.eq_dec a b)
      | H : context [Nat.eq_dec ?a ?b] |- _ => destruct (Nat.eq_dec a b)
      end; try lia.
Qed.

(** The commit ends the iteration, and with it the hold of receive on the
    base, which was not closed. *)
Lemma commit_drops_base c s f sum ok s' :
  exclusive s ->
  rpc s = RCommit f ->
  step c (RecvCommit sum ok) s = Some s' ->
  unaccounted (base_number (dr_base (dispatched f))) s'.
Proof.
  intros Hex Hpc H.
  destruct (Hex (base_number (dr_base (dispatched f)))) as [H1 H2].
  unfold unaccounted, accounted in *.
  destruct s; simpl in Hpc; subst. unfold step in H; simpl in H.
  injection H as <-. simpl in *.
  unfold after_commit.
  rewrite ?map_app, ?count_occ_app in *. simpl in *.
  destruct (Nat.eq_dec (base_number (dr_base (dispatched f)))
                       (base_number (dr_base (dispatched f)))); [|congruence].
  destruct (decodeError f); simpl;
  split; try lia;
  destruct (Nat.le_gt_cases (List.length opened0)
              (base_number (dr_base (dispatched f)))) as [Hle|Hgt];
    try exact Hgt; specialize (H2 Hle); lia.
Qed.

(** *** The runs *)

(** C1. ApplyDelta fails on the first operation of "go".  Receive
    takes the result of ApplyDelta and burns the responses of "go" up to
    Done; the break after that leaves the select statement only, so the
    feeding loop decodes the next response, the first operation of "godoc",
    and tries to forward it to the ApplyDelta that has returned.  Nothing
    can move any more: the temporary file of "go" is neither renamed nor
    removed, "godoc" stays in the queue and Stage has not returned. *)
Theorem C1_receive_stuck_after_apply_failure :
  exists s f,
    run Examples.client Examples.apply_fails_first
      (initial [Examples.go; Examples.godoc]) = Some s /\
    rpc s = RForward f 9 /\
    dispatched f = mkDispatched Examples.go (OsFile 0) /\
    applyExited f = true /\
    applyError f = Some "write failed" /\
    apc s = AReturned /\ applyErrors s = None /\
    outstanding s = [mkDispatched Examples.godoc (OsFile 1)] /\
    fslog s = [FsTempFile "/srv/staging/staging1"] /\
    returned s = false /\
    stuck Examples.client s.
Proof.
  do 2 eexists. split; [run_eval|].
  repeat (split; [reflexivity|]).
  intros l; destruct l; reflexivity.
Qed.

(** C2. TempFile fails for "go" and Stage raises the cancellation of
    dispatch, which takes it at the select statement for "godoc" and
    closes that base.  The break leaves the select statement only: dispatch
    is back in its loop with "gofmt" left and the queue still open; it goes
    on to open, encode and enqueue "gofmt", and Stage returns only after
    that. *)
Theorem C2_dispatch_continues_after_cancellation :
  exists s0 s1 s2 s3,
    run Examples.client Examples.cancel_pending_at_godoc
      (initial [Examples.go; Examples.godoc; Examples.gofmt]) = Some s0 /\
    dpc s0 = DSelect Examples.godoc [Examples.gofmt] (OsFile 1) /\
    dispatchCancel s0 = true /\
    step Examples.client DispCancelled s0 = Some s1 /\
    closed s1 = (closed s0 ++ [OsFile 1])%list /\
    dpc s1 = DLoop [Examples.gofmt] /\
    outstanding_closed s1 = false /\
    run Examples.client Examples.dispatch_one s1 = Some s2 /\
    opened s2 = (opened s1 ++ [("/srv/sync/gofmt", OsFile 2)])%list /\
    sent s2 = (sent s1 ++ [mkRequest Examples.gofmt [1; 2]])%list /\
    outstanding s2 = [mkDispatched Examples.gofmt (OsFile 2)] /\
    run Examples.client
      [DispClose; StageDispatchDone; StageDrain; StageReturn] s2 = Some s3 /\
    spc s3 = SReturn (Some "no space left on device").
Proof.
  do 4 eexists. split; [run_eval|].
  do 2 (split; [reflexivity|]). split; [run_eval|].
  do 3 (split; [reflexivity|]). split; [run_eval|].
  do 3 (split; [reflexivity|]). split; [run_eval|]. reflexivity.
Qed.

(** C4. "go" is received and committed; Decode fails in the feeding loop
    of "godoc", receive removes the temporary file and returns the error,
    and Stage raises the cancellation of dispatch.  Dispatch takes it at
    the seventh path and goes on to the eighth, for which the queue is full
    and no cancellation is left: nothing can move, and Stage, which holds
    the decode error, has not returned it. *)
Theorem C4_decode_failure_Stage_blocked :
  exists s,
    run Examples.client Examples.decode_fails_second (initial Examples.eight)
      = Some s /\
    rpc s = RExit /\
    spc s = SWait true false None (Some "unexpected EOF") /\
    dpc s = DSelect ["8"] [] (OsFile 7) /\
    List.length (outstanding s) = 4 /\
    dispatchCancel s = false /\
    fslog s = [FsTempFile "/srv/staging/staging1";
               FsRename "/srv/staging/staging1" "/srv/staging/ab01" true;
               FsTempFile "/srv/staging/staging2";
               FsRemove "/srv/staging/staging2" true] /\
    returned s = false /\
    stuck Examples.client s.
Proof.
  eexists. split; [run_eval|].
  repeat (split; [reflexivity|]).
  intros l; destruct l; reflexivity.
Qed.

(** C5. The base of a path whose iteration reaches the commit is not
    closed by receive, and nobody holds it afterwards: however the run goes
    on, to the return of Stage included, that handle has been closed zero
    times. *)
Theorem C5_base_left_open_after_commit (c : Client) (paths : list Path)
    (ls1 ls2 : list label) (s s2 : state) (f : feed) (sum : list byte)
    (ok : bool) :
  run c ls1 (initial paths) = Some s ->
  rpc s = RCommit f ->
  run c (RecvCommit sum ok :: ls2) s = Some s2 ->
  times_closed (dr_base (dispatched f)) s2 = 0.
Proof.
  intros Hrun Hpc Hrun2. cbn [run] in Hrun2.
  destruct (step c (RecvCommit sum ok) s) as [s1|] eqn:Hstep; [|discriminate].
  pose proof (@commit_drops_base c s f sum ok s1
                (run_exclusive _ _ _ Hrun) Hpc Hstep) as Hun.
  assert (Hun2 : unaccounted (base_number (dr_base (dispatched f))) s2).
  { apply (run_invariant c
             (unaccounted (base_number (dr_base (dispatched f)))))
      with (ls := ls2) (s := s1); auto.
    intros l sa sb Ha Hs. eapply step_unaccounted; eauto. }
  destruct Hun2 as [_ H0]. unfold accounted, times_closed in *.
  rewrite !map_app, !count_occ_app in H0.
  pose proof (count_occ_base_number (closed s2) (dr_base (dispatched f))).
  lia.
Qed.

(** One path and nothing fails: Stage returns nil, the file is staged, and
    the base dispatch opened for "go" was never closed. *)
Lemma C5_base_left_open_after_commit_witness :
  run Examples.client Examples.all_succeeds (initial [Examples.go])
    = Some Examples.all_succeeds_end /\
  spc Examples.all_succeeds_end = SReturn None /\
  staged_files (fslog Examples.all_succeeds_end) = ["/srv/staging/ab01"] /\
  bases Examples.all_succeeds_end = [OsFile 0] /\
  times_closed (OsFile 0) Examples.all_succeeds_end = 0.
Proof.
  split; [run_eval|]. do 3 (split; [reflexivity|]).
  refine (@C5_base_left_open_after_commit Examples.client [Examples.go]
            Examples.before_commit Examples.after_commit_all_succeeds
            Examples.at_commit Examples.all_succeeds_end
            (mkFeed (mkDispatched Examples.go (OsFile 0))
               "/srv/staging/staging1" None None false)
            [xab; x01]%byte true _ eq_refl _); run_eval.
Defined.

(** * Further properties of the code *)

(** ** path.go *)

Lemma copy_into_fresh (p : Path) :
  copy (make_Path (List.length p + 1)) p = (p ++ [""])%list.
Proof.
  unfold copy, make_Path. rewrite repeat_length.
  rewrite firstn_all2 by lia. f_equal.
  rewrite repeat_app, skipn_app, repeat_length, Nat.sub_diag.
  rewrite skipn_all2 by (rewrite repeat_length; lia). reflexivity.
Qed.

(** X1. [Appended], written with [make], [copy] and an assignment to the
    last index, never panics and returns the components of the path
    followed by the new one. *)
Theorem Appended_slice_correct (p : Path) (component : string) :
  Appended_slice p component = Some (Appended p component).
Proof.
  unfold Appended_slice, Appended. cbv zeta. rewrite copy_into_fresh.
  unfold set_index. rewrite length_app. cbn [List.length].
  replace (Nat.ltb (List.length p) (List.length p + 1)) with true
    by (symmetry; apply Nat.ltb_lt; lia).
  rewrite firstn_app, Nat.sub_diag, firstn_all. cbn [firstn].
  rewrite app_nil_r. f_equal. f_equal.
  rewrite skipn_all2 by (rewrite length_app; cbn [List.length]; lia).
  reflexivity.
Qed.

(** X2. The string of an appended path is the string of the path, a slash
    and the component; for the empty path it is the component alone. *)
Theorem String_Appended (p : Path) (component : string) :
  Path_String (Appended p component) =
  match p with
  | [] => component
  | _ :: _ => Path_String p ++ "/" ++ component
  end.
Proof.
  unfold Path_String, Appended. rewrite concat_snoc.
  destruct p; reflexivity.
Qed.


(** Splitting the string of a path at the separators gives the components
    back, when no component holds a separator. *)
Lemma elements_Path_String (p : Path) :
  p <> [] -> separator_free p = true -> elements (Path_String p) = p.
Proof.
  unfold Path_String, separator_free.
  induction p as [|a p IH]; intros Hne Hp; [congruence|].
  simpl in Hp. apply andb_true_iff in Hp as [Ha Hp].
  destruct p as [|b p].
  - simpl. apply elements_no_separator, Ha.
  - change (String.concat "/" (a :: b :: p))
      with (a ++ String Separator (String.concat "/" (b :: p))).
    rewrite elements_app_sep, (elements_no_separator a Ha).
    rewrite IH; [reflexivity|discriminate|exact Hp].
Qed.

(** X3. Two different non-empty paths whose components hold no separator
    have different strings. *)
Theorem Path_String_injective (p q : Path) :
  p <> [] -> q <> [] ->
  separator_free p = true -> separator_free q = true ->
  p <> q -> Path_String p <> Path_String q.
Proof.
  intros Hp Hq Sp Sq Hpq E. apply Hpq.
  rewrite <- (elements_Path_String Hp Sp), <- (elements_Path_String Hq Sq).
  now rewrite E.
Qed.

Lemma Path_String_injective_witness :
  Path_String ["bin"; "go"] <> Path_String ["bin"; "godoc"].
Proof.
  apply (@Path_String_injective ["bin"; "go"] ["bin"; "godoc"]);
    try discriminate; reflexivity.
Defined.











(** X5. For the empty path [AppendedToRoot] is the cleaned root. *)
Theorem AppendedToRoot_empty (root : string) :
  AppendedToRoot [] root = Join [root].
Proof.
  unfold AppendedToRoot. cbv zeta. unfold Join.
  destruct (root =? "") eqn:Hroot; [reflexivity|].
  cbn [String.concat]. unfold Clean.
  assert (Hnz : (root ++ "/" ++ "" =? "") = false)
    by (destruct root; [discriminate Hroot|reflexivity]).
  assert (Hrt : is_rooted (root ++ "/" ++ "") = is_rooted root)
    by (destruct root; [discriminate Hroot|reflexivity]).
  rewrite Hnz, Hrt, Hroot. cbv zeta.
  change (root ++ "/" ++ "") with (root ++ String Separator "").
  rewrite elements_app_sep, fold_left_app. reflexivity.
Qed.

(** ** client.go: the base handles *)

Lemma count_occ_In_base_number l b :
  In b l -> 1 <= count_occ Nat.eq_dec (map base_number l) (base_number b).
Proof.
  induction l as [|x l IH]; simpl; [contradiction|].
  intros [->|Hin].
  - destruct (Nat.eq_dec (base_number b) (base_number b)); [lia|congruence].
  - specialize (IH Hin).
    destruct (Nat.eq_dec (base_number x) (base_number b)); lia.
Qed.

(** X6. Along every run a base handle has one owner at a time: no handle is
    closed twice, and a handle that dispatch, the queue or receive holds
    has not been closed. *)
Theorem bases_exclusively_owned (c : Client) (paths : list Path)
    (ls : list label) (s : state) :
  run c ls (initial paths) = Some s ->
  (forall b, times_closed b s <= 1) /\
  (forall b, In b (held s) -> times_closed b s = 0).
Proof.
  intros Hrun. split; intros b.
  - exact (base_closed_at_most_once _ _ _ b Hrun).
  - intros Hin.
    destruct (run_exclusive _ _ _ Hrun (base_number b)) as [H _].
    unfold accounted, held, times_closed in *.
    rewrite !app_assoc in H. rewrite map_app, count_occ_app in H.
    rewrite <- !app_assoc in H.
    pose proof (count_occ_In_base_number _ _ Hin).
    pose proof (count_occ_base_number (closed s) b). lia.
Qed.

(** After [queue_filled] four records are queued and dispatch holds the
    fifth base: none of them was closed. *)
Lemma bases_exclusively_owned_witness :
  held Examples.queue_full
    = [OsFile 4; OsFile 0; OsFile 1; OsFile 2; OsFile 3] /\
  times_closed (OsFile 4) Examples.queue_full = 0.
Proof.
  split; [reflexivity|].
  refine (proj2 (@bases_exclusively_owned Examples.client Examples.five
                   Examples.queue_filled Examples.queue_full _)
            (OsFile 4) _).
  - run_eval.
  - simpl. auto.
Defined.

(** ** client.go: the order of the opens, of the requests and of the queue *)

Lemma subsequence_refl {A} (l : list A) : subsequence l l.
Proof. induction l; constructor; assumption. Qed.

Lemma subsequence_nil_l {A} (l : list A) : subsequence [] l.
Proof. induction l; constructor; assumption. Qed.

Lemma subsequence_app {A} (l1 l2 l1' l2' : list A) :
  subsequence l1 l2 -> subsequence l1' l2' ->
  subsequence (l1 ++ l1') (l2 ++ l2').
Proof.
  intros H H'. induction H; simpl; try (constructor; assumption).
  assumption.
Qed.

Lemma subsequence_tail {A} (x : A) l1 l2 :
  subsequence (x :: l1) l2 -> subsequence l1 l2.
Proof.
  intros H. remember (x :: l1) as l eqn:E. revert x l1 E.
  induction H; intros y l0 E; try discriminate E.
  - constructor. eapply IHsubsequence; eauto.
  - injection E as -> ->. constructor. assumption.
Qed.

Lemma subsequence_app_r {A} (l1 l2 l3 : list A) :
  subsequence l1 l2 -> subsequence l1 (l2 ++ l3).
Proof.
  intros H. rewrite <- (app_nil_r l1).
  apply subsequence_app; [assumption|apply subsequence_nil_l].
Qed.

Lemma subsequence_snoc {A} (x : A) l1 l2 :
  subsequence l1 l2 -> subsequence (l1 ++ [x]) (l2 ++ [x]).
Proof. intros H. apply subsequence_app; [assumption|apply subsequence_refl]. Qed.

Lemma step_opened_in_order c paths l s s' :
  opened_in_order c paths s -> step c l s = Some s' ->
  opened_in_order c paths s'.
Proof.
  intros (done & rest & Hp & Ho & Hr & Hc) H. unfold opened_in_order.
  step_inv H; try pose proof (Hr _ eq_refl) as Hrest;
    try solve
      [ exists done, rest; repeat split;
        first [ assumption
              | intros r Hu; first [discriminate Hu | apply Hr; exact Hu]
              | intros _; symmetry; exact Hrest ] ].
  all: subst rest.
  all: exists (done ++ [p])%list, rest0; repeat split;
    [ rewrite <- app_assoc; reflexivity
    | rewrite map_app, Ho; unfold hosts; rewrite map_app; reflexivity
    | intros r Hu; injection Hu as <-; reflexivity
    | intros Hcl; specialize (Hc Hcl); discriminate Hc ].
Qed.

Lemma step_requests_in_order c paths l s s' :
  requests_in_order paths s -> step c l s = Some s' ->
  requests_in_order paths s'.
Proof.
  intros (done & rest & Hp & Hs & Hr) H.
  unfold requests_in_order, sent_paths in *.
  step_inv H; try pose proof (Hr _ eq_refl) as Hrest;
    try solve
      [ exists done, rest; repeat split;
        first [ assumption
              | intros r Hu; first [discriminate Hu | apply Hr; exact Hu] ] ].
  all: subst rest.
  all: exists (done ++ [path])%list, rest0; repeat split;
    [ rewrite <- app_assoc; reflexivity
    | first [ apply subsequence_app_r; assumption
            | rewrite map_app; apply subsequence_snoc; assumption ]
    | intros r Hu; injection Hu as <-; reflexivity ].
Qed.

Lemma step_queue_in_order c l s s' :
  queue_in_order s -> step c l s = Some s' -> queue_in_order s'.
Proof.
  intros HB H. unfold queue_in_order, sent_paths, queued_paths in *.
  step_inv H; try assumption.
  - (* Encode: the request of the path becomes the last one sent *)
    exists (map req_Path sent0). rewrite map_app. split; [reflexivity|assumption].
  - (* enqueue *)
    destruct HB as (before & -> & Hq). rewrite map_app.
    apply subsequence_snoc, Hq.
  - (* cancellation *)
    destruct HB as (before & -> & Hq). apply subsequence_app_r, Hq.
  - (* dequeue *)
    destruct dpc0; try (eapply subsequence_tail; exact HB).
    destruct HB as (before & E & Hq). exists before.
    split; [exact E|eapply subsequence_tail; exact Hq].
  - (* the drain of Stage *)
    destruct dpc0; try (eapply subsequence_tail; exact HB).
    destruct HB as (before & E & Hq). exists before.
    split; [exact E|eapply subsequence_tail; exact Hq].
Qed.

(** X7. Along every run the requests encoded on the stream are paths of the
    input list, in the order of the list and at most one for each place in
    it; and the records in the queue are among the requests sent, in the
    order in which they were sent. *)
Theorem requests_and_queue_in_order (c : Client) (paths : list Path)
    (ls : list label) (s : state) :
  run c ls (initial paths) = Some s ->
  subsequence (sent_paths s) paths /\
  subsequence (queued_paths s) (sent_paths s).
Proof.
  intros Hrun. split.
  - assert (H : requests_in_order paths s).
    { apply (run_invariant c (requests_in_order paths))
        with (ls := ls) (s := initial paths); auto.
      - intros l s1 s2 H1 Hs. eapply step_requests_in_order; eauto.
      - exists [], paths. repeat split; [constructor|].
        intros r Hu. injection Hu as <-. reflexivity. }
    destruct H as (done & rest & -> & Hs & _).
    apply subsequence_app_r, Hs.
  - assert (H : queue_in_order s).
    { apply (run_invariant c queue_in_order)
        with (ls := ls) (s := initial paths); auto.
      - intros l s1 s2 H1 Hs. eapply step_queue_in_order; eauto.
      - constructor. }
    unfold queue_in_order in H. destruct (dpc s); try exact H.
    destruct H as (before & -> & Hq). apply subsequence_app_r, Hq.
Qed.

(** In the run of C4 six requests are sent after the two received, four of
    them queued: "7" was given up at the cancellation. *)
Lemma requests_and_queue_in_order_witness :
  sent_paths (Examples.final Examples.client Examples.decode_fails_second
                Examples.eight) = Examples.eight /\
  queued_paths (Examples.final Examples.client Examples.decode_fails_second
                  Examples.eight)
    = [Examples.gofmt; ["4"]; ["5"]; ["6"]] /\
  subsequence
    (queued_paths (Examples.final Examples.client Examples.decode_fails_second
                     Examples.eight))
    (sent_paths (Examples.final Examples.client Examples.decode_fails_second
                   Examples.eight)).
Proof.
  split; [reflexivity|]. split; [reflexivity|].
  refine (proj2 (@requests_and_queue_in_order Examples.client Examples.eight
                   Examples.decode_fails_second _ _)).
  run_eval.
Defined.

(** X8. Along every run the files dispatch has opened are the host paths
    [AppendedToRoot path root] of the first paths of the input list, one
    open for each, in order; once the queue is closed they are those of
    all the paths. *)
Theorem bases_opened_in_order (c : Client) (paths : list Path)
    (ls : list label) (s : state) :
  run c ls (initial paths) = Some s ->
  map fst (opened s) = hosts c (firstn (List.length (opened s)) paths) /\
  (outstanding_closed s = true -> map fst (opened s) = hosts c paths).
Proof.
  intros Hrun.
  assert (H : opened_in_order c paths s).
  { apply (run_invariant c (opened_in_order c paths))
      with (ls := ls) (s := initial paths); auto.
    - intros l s1 s2 H1 Hs. eapply step_opened_in_order; eauto.
    - exists [], paths. repeat split; try discriminate.
      intros r Hu. injection Hu as <-. reflexivity. }
  destruct H as (done & rest & -> & Ho & _ & Hc).
  assert (Hlen : List.length (opened s) = List.length done).
  { rewrite <- (length_map fst), Ho. unfold hosts. apply length_map. }
  split.
  - rewrite Hlen, firstn_app, Nat.sub_diag, firstn_all. cbn [firstn].
    rewrite app_nil_r. exact Ho.
  - intros Hcl. rewrite (Hc Hcl), app_nil_r. exact Ho.
Qed.

Lemma bases_opened_in_order_witness :
  map fst (opened Examples.bases_missing_end)
    = ["/srv/sync/go"; "/srv/sync/godoc"].
Proof.
  refine (proj2 (@bases_opened_in_order Examples.client
                   [Examples.go; Examples.godoc] Examples.bases_missing
                   Examples.bases_missing_end _) eq_refl).
  run_eval.
Defined.

(** ** client.go: goroutines and channels *)

Lemma step_cancel_after_exit c l s s' :
  cancel_after_exit s -> step c l s = Some s' -> cancel_after_exit s'.
Proof.
  intros [H1 H2] H. unfold cancel_after_exit in *.
  step_inv H; split; intros Hc; try discriminate Hc; try reflexivity;
    try (specialize (H1 Hc); discriminate H1);
    try (specialize (H2 Hc); discriminate H2);
    auto.
Qed.

Lemma step_apply_in_step c l s s' :
  apply_in_step s -> step c l s = Some s' -> apply_in_step s'.
Proof.
  intros HA H. unfold apply_in_step in *.
  step_inv H; try assumption;
    unfold after_commit in *;
    repeat match goal with
      | r : receive_pc |- _ => destruct r; simpl in *
      | f : feed |- _ => destruct f; simpl in *
      | b : bool |- _ => destruct b; simpl in *
      | e : error |- _ => destruct e; simpl in *
      end;
    try assumption;
    try (destruct HA as [[Ha Hb]|[Ha Hb]]; try discriminate; try congruence);
    try (destruct HA as [Ha Hb]; try discriminate; try congruence);
    try (split; congruence);
    try (left; split; congruence);
    try (right; split; congruence).
Qed.

Ltac destruct_inner_match :=
  match goal with
  | |- context [match ?x with _ => _ end] =>
      lazymatch x with
      | context [match _ with _ => _ end] => fail
      | _ => destruct x eqn:?; simpl in *
      end
  end.

Lemma step_stage_in_step c l s s' :
  stage_in_step s -> step c l s = Some s' -> stage_in_step s'.
Proof.
  intros HS H. unfold stage_in_step, dispatch_ended, receive_ended in *.
  step_inv H; try assumption;
    unfold stage_wait, after_commit in *;
    repeat match goal with
      | p : stage_pc |- _ => destruct p; simpl in *
      end;
    repeat match goal with
      | H : _ /\ _ |- _ => destruct H
      end;
    repeat destruct_inner_match;
    try congruence;
    repeat split; try congruence;
    subst; simpl in *; congruence.
Qed.

(** X9. Stage never blocks raising a cancellation: whenever a goroutine is
    about to hand its result to Stage, the cancellation channel Stage may
    then send on is empty. *)
Theorem cancel_slot_free (c : Client) (paths : list Path)
    (ls : list label) (s : state) :
  run c ls (initial paths) = Some s ->
  (forall e, dpc s = DSend e -> receiveCancel s = false) /\
  (forall e, rpc s = RSend e -> dispatchCancel s = false).
Proof.
  intros Hrun.
  assert (H : cancel_after_exit s).
  { apply (run_invariant c cancel_after_exit)
      with (ls := ls) (s := initial paths); auto.
    - intros l s1 s2 H1 Hs. eapply step_cancel_after_exit; eauto.
    - split; discriminate. }
  destruct H as [H1 H2].
  split; intros e Hpc.
  - destruct (receiveCancel s); [|reflexivity].
    rewrite (H1 eq_refl) in Hpc. discriminate Hpc.
  - destruct (dispatchCancel s); [|reflexivity].
    rewrite (H2 eq_refl) in Hpc. discriminate Hpc.
Qed.

Lemma run_apply_in_step c paths ls s :
  run c ls (initial paths) = Some s -> apply_in_step s.
Proof.
  intros Hrun.
  apply (run_invariant c apply_in_step) with (ls := ls) (s := initial paths).
  - intros l s1 s2 H1 Hs. eapply step_apply_in_step; eauto.
  - split; [discriminate|reflexivity].
  - exact Hrun.
Qed.

(** X10. Receive neither ends an iteration nor starts one while ApplyDelta
    is running or its result is unread: outside the iterations, and at the
    commit, the ApplyDelta goroutine has returned (or none was started) and
    [applyErrors] is empty. *)
Theorem apply_settled_between_iterations (c : Client) (paths : list Path)
    (ls : list label) (s : state) :
  run c ls (initial paths) = Some s ->
  (current_feed (rpc s) = None \/ exists f, rpc s = RCommit f) ->
  apc s <> ARunning /\ applyErrors s = None.
Proof.
  intros Hrun Hpc. pose proof (run_apply_in_step _ _ _ Hrun) as H.
  unfold apply_in_step in H.
  destruct Hpc as [Hpc|[f Hpc]].
  - destruct (rpc s); simpl in Hpc; try discriminate Hpc; exact H.
  - rewrite Hpc in H. exact H.
Qed.

(** X11. When Stage returns, dispatch and receive have ended, no
    ApplyDelta goroutine is running, and the queue is closed and empty. *)
Theorem nothing_outlives_Stage (c : Client) (paths : list Path)
    (ls : list label) (s : state) :
  run c ls (initial paths) = Some s ->
  returned s = true ->
  dpc s = DExit /\ rpc s = RExit /\ apc s <> ARunning /\
  applyErrors s = None /\
  outstanding s = [] /\ outstanding_closed s = true.
Proof.
  intros Hrun Hret.
  assert (H : stage_in_step s).
  { apply (run_invariant c stage_in_step)
      with (ls := ls) (s := initial paths); auto.
    - intros l s1 s2 H1 Hs. eapply step_stage_in_step; eauto.
    - split; reflexivity. }
  unfold stage_in_step, returned, dispatch_ended, receive_ended in *.
  destruct (spc s); try discriminate Hret.
  destruct H as (Hd & Hr & Hq & Hc).
  assert (Ed : dpc s = DExit) by (destruct (dpc s); congruence).
  assert (Er : rpc s = RExit) by (destruct (rpc s); congruence).
  assert (Ha : apc s <> ARunning /\ applyErrors s = None).
  { pose proof (run_apply_in_step _ _ _ Hrun) as HA.
    unfold apply_in_step in HA. rewrite Er in HA. exact HA. }
  destruct Ha as [Ha He]. repeat split; assumption.
Qed.

Lemma cancel_slot_free_witness :
  run Examples.client (firstn 3 Examples.encode_fails) (initial [Examples.go])
    = Some Examples.encode_failed_unsent /\
  dpc Examples.encode_failed_unsent = DSend (Some "broken pipe") /\
  receiveCancel Examples.encode_failed_unsent = false.
Proof.
  assert (Hrun : run Examples.client (firstn 3 Examples.encode_fails)
                   (initial [Examples.go])
                 = Some Examples.encode_failed_unsent) by run_eval.
  split; [exact Hrun|]. split; [reflexivity|].
  exact (proj1 (@cancel_slot_free Examples.client [Examples.go]
                  (firstn 3 Examples.encode_fails)
                  Examples.encode_failed_unsent Hrun)
           (Some "broken pipe") eq_refl).
Defined.

Lemma apply_settled_between_iterations_witness :
  rpc Examples.at_commit
    = RCommit (mkFeed (mkDispatched Examples.go (OsFile 0))
                 "/srv/staging/staging1" None None false) /\
  apc Examples.at_commit <> ARunning /\
  applyErrors Examples.at_commit = None.
Proof.
  split; [reflexivity|].
  refine (@apply_settled_between_iterations Examples.client [Examples.go]
            Examples.before_commit Examples.at_commit _ _).
  - run_eval.
  - right. eexists. reflexivity.
Defined.

Lemma nothing_outlives_Stage_witness :
  dpc Examples.all_succeeds_end = DExit /\
  rpc Examples.all_succeeds_end = RExit /\
  apc Examples.all_succeeds_end <> ARunning /\
  applyErrors Examples.all_succeeds_end = None /\
  outstanding Examples.all_succeeds_end = [] /\
  outstanding_closed Examples.all_succeeds_end = true.
Proof.
  refine (@nothing_outlives_Stage Examples.client [Examples.go]
            Examples.all_succeeds Examples.all_succeeds_end _ eq_refl).
  run_eval.
Defined.

(** X12. Dispatch never sends on the queue, nor closes it, once it is
    closed (either would panic): while dispatch is in its loop the queue is
    open. *)
Theorem queue_open_while_dispatching (c : Client) (paths : list Path)
    (ls : list label) (s : state) :
  run c ls (initial paths) = Some s ->
  dispatching (dpc s) = true ->
  outstanding_closed s = false.
Proof.
  intros Hrun.
  apply (run_invariant c
           (fun s => dispatching (dpc s) = true ->
                     outstanding_closed s = false))
    with (ls := ls) (s := initial paths); auto.
  intros l sa sb Ha Hs. eapply step_open_while_dispatching; eauto.
Qed.

Lemma queue_open_while_dispatching_witness :
  dpc Examples.queue_full = DSelect ["5"] [] (OsFile 4) /\
  outstanding_closed Examples.queue_full = false.
Proof.
  split; [reflexivity|].
  refine (@queue_open_while_dispatching Examples.client Examples.five
            Examples.queue_filled Examples.queue_full _ eq_refl).
  run_eval.
Defined.

(** ** client.go: the staging directory *)

Lemma complete_paired log : forall rest,
  complete_log log -> paired (log ++ rest) = paired rest.
Proof.
  intros rest H. revert rest.
  induction H as [|log name ok H IH|log name newname ok H IH]; intros rest.
  - reflexivity.
  - rewrite <- app_assoc, IH. cbn [app paired].
    rewrite String.eqb_refl. reflexivity.
  - rewrite <- app_assoc, IH. cbn [app paired].
    rewrite String.eqb_refl. reflexivity.
Qed.

Lemma step_log_in_step c l s s' :
  log_in_step s -> step c l s = Some s' -> log_in_step s'.
Proof.
  intros HL H. unfold log_in_step in *.
  step_inv H; try assumption.
  - (* TempFile *)
    eexists. split; [exact HL|reflexivity].
  - (* the commit *)
    destruct HL as (log & Hc & ->).
    assert (E : current_feed (after_commit f) = None)
      by (unfold after_commit; destruct (decodeError f); reflexivity).
    rewrite E. rewrite <- app_assoc. cbn [app].
    unfold commit. destruct (decodeError f); [|destruct (applyError f)];
      constructor; assumption.
Qed.

(** X13. Along every run receive removes or renames only the temporary
    file it created last, and creates the next one only after that: the
    log of the staging directory is a sequence of pairs, a temporary file
    and its removal or renaming, ended at most by one temporary file. *)
Theorem staging_log_paired (c : Client) (paths : list Path)
    (ls : list label) (s : state) :
  run c ls (initial paths) = Some s ->
  paired (fslog s) = true /\
  (current_feed (rpc s) = None -> complete_log (fslog s)).
Proof.
  intros Hrun.
  assert (H : log_in_step s).
  { apply (run_invariant c log_in_step)
      with (ls := ls) (s := initial paths); auto.
    - intros l s1 s2 H1 Hs. eapply step_log_in_step; eauto.
    - constructor. }
  unfold log_in_step in H. split.
  - destruct (current_feed (rpc s)) as [f|].
    + destruct H as (log & Hc & ->). now rewrite complete_paired.
    + rewrite <- (app_nil_r (fslog s)). now rewrite complete_paired.
  - intros E. rewrite E in H. exact H.
Qed.

Lemma staging_log_paired_witness :
  fslog (Examples.final Examples.client Examples.decode_fails_second
           Examples.eight)
    = [FsTempFile "/srv/staging/staging1";
       FsRename "/srv/staging/staging1" "/srv/staging/ab01" true;
       FsTempFile "/srv/staging/staging2";
       FsRemove "/srv/staging/staging2" true] /\
  paired (fslog (Examples.final Examples.client Examples.decode_fails_second
                   Examples.eight)) = true.
Proof.
  split; [reflexivity|].
  refine (proj1 (@staging_log_paired Examples.client Examples.eight
                   Examples.decode_fails_second _ _)).
  run_eval.
Defined.

Lemma append_cancel_l (a b c : string) : a ++ b = a ++ c -> b = c.
Proof.
  induction a as [|ch a IH]; simpl; intros H; [exact H|].
  injection H as H. exact (IH H).
Qed.

Lemma child_injective dir n1 n2 : child dir n1 = child dir n2 -> n1 = n2.
Proof.
  unfold child. destruct ((dir =? "") || (dir =? ".")); [auto|].
  destruct (dir =? "/"); intros H.
  - injection H as H. exact H.
  - apply append_cancel_l in H. injection H as H. exact H.
Qed.

Lemma temp_name_plain suffix :
  no_separator suffix = true ->
  plain_element (stagingTempFileBaseName ++ suffix) = true.
Proof.
  intros Hs. unfold plain_element, no_separator in *.
  unfold stagingTempFileBaseName. simpl. exact Hs.
Qed.

(** X14. The name of a temporary file is never the final name of a staged
    file: in one directory, [stagingTempFileBaseName] followed by a suffix
    without separator and the hexadecimal print of a non-empty hash value
    are different paths. *)
Theorem temp_name_never_final (dir suffix : string) (sum : list byte) :
  no_separator suffix = true ->
  sum <> [] ->
  Filepath.Join [dir; stagingTempFileBaseName ++ suffix]
  <> Filepath.Join [dir; Fmt.Sprintf_x sum].
Proof.
  intros Hs Hsum E.
  rewrite (Join_child dir _ (temp_name_plain suffix Hs)) in E.
  rewrite (Join_child dir _ (Sprintf_x_plain Hsum)) in E.
  apply child_injective in E.
  pose proof (Sprintf_x_lower sum) as Hl. rewrite <- E in Hl.
  discriminate Hl.
Qed.

Lemma temp_name_never_final_witness :
  Filepath.Join ["/srv/staging"; stagingTempFileBaseName ++ "1"]
  <> Filepath.Join ["/srv/staging"; Fmt.Sprintf_x [xab; x01]%byte].
Proof.
  apply (@temp_name_never_final "/srv/staging" "1" [xab; x01]%byte);
    [reflexivity|discriminate].
Defined.

(** ** client.go: a run in which nothing fails *)










(** ** client.go: burnRemainingOperations *)

Lemma step_burn_operation c s f resp :
  rpc s = RBurn f -> resp_Done resp = false ->
  step c (RecvBurn (inr resp)) s = Some s.
Proof.
  intros Hpc Hd. destruct s; simpl in Hpc; subst.
  unfold step; simpl. rewrite Hd. reflexivity.
Qed.

Lemma step_burn_last c s f last :
  rpc s = RBurn f -> carries_operation last = false ->
  step c (RecvBurn last) s =
  Some (set_rpc (RDecode (set_decodeError
                            (match last with
                             | inl e => Some e
                             | inr _ => None
                             end) f)) s).
Proof.
  intros Hpc Hl. destruct s; simpl in Hpc; subst.
  destruct last as [e|resp]; unfold step; simpl; [reflexivity|].
  simpl in Hl. apply negb_false_iff in Hl. rewrite Hl. reflexivity.
Qed.

(** X16. When burnRemainingOperations returns, it has consumed the
    responses up to and including the first one that is Done or fails to
    decode, and nothing after it; all the responses before that one carry
    operations, which are dropped; the error returned is that of the
    failed Decode, nil after Done.  The steps of receive in the burning
    loop on those answers end at the head of the feeding loop with that
    error as decodeError. *)
Theorem burnRemainingOperations_consumes_to_Done
    (stream : list (string + response)) (err : error)
    (rest : list (string + response)) :
  burnRemainingOperations stream = Some (err, rest) ->
  exists ops last,
    stream = (ops ++ last :: rest)%list /\
    forallb carries_operation ops = true /\
    carries_operation last = false /\
    err = match last with inl e => Some e | inr _ => None end /\
    forall c s f,
      rpc s = RBurn f ->
      run c (map RecvBurn (ops ++ [last])) s =
      Some (set_rpc (RDecode (set_decodeError err f)) s).
Proof.
  revert err rest.
  induction stream as [|r stream IH]; intros err rest H; [discriminate|].
  destruct r as [e|resp]; cbn [burnRemainingOperations] in H.
  - injection H as <- <-. exists [], (inl e).
    repeat split. intros c s f Hpc. cbn [app map run].
    rewrite (@step_burn_last c s f (inl e) Hpc eq_refl). reflexivity.
  - destruct (resp_Done resp) eqn:Hd.
    + injection H as <- <-. exists [], (inr resp).
      assert (Hl : carries_operation (inr resp) = false)
        by (simpl; rewrite Hd; reflexivity).
      repeat split; [exact Hl|]. intros c s f Hpc. cbn [app map run].
      rewrite (@step_burn_last c s f (inr resp) Hpc Hl). reflexivity.
    + destruct (IH _ _ H) as (ops & last & -> & Hops & Hl & -> & Hrun).
      exists (inr resp :: ops), last.
      repeat split; [|exact Hl|].
      * cbn [forallb carries_operation]. rewrite Hd, Hops. reflexivity.
      * intros c s f Hpc. cbn [app map run].
        rewrite (@step_burn_operation c s f resp Hpc Hd).
        apply Hrun, Hpc.
Qed.

Lemma burnRemainingOperations_consumes_to_Done_witness :
  exists ops last,
    [inr (mkResponse 7 false); inr (mkResponse 8 false);
     inr (mkResponse 0 true); inr (mkResponse 9 false)] =
      (ops ++ last :: [inr (mkResponse 9 false)])%list /\
    forallb carries_operation ops = true /\
    carries_operation last = false /\
    @None string = match last with inl e => Some e | inr _ => None end /\
    forall c s f,
      rpc s = RBurn f ->
      run c (map RecvBurn (ops ++ [last])) s =
      Some (set_rpc (RDecode (set_decodeError None f)) s).
Proof.
  apply (@burnRemainingOperations_consumes_to_Done
           [inr (mkResponse 7 false); inr (mkResponse 8 false);
            inr (mkResponse 0 true); inr (mkResponse 9 false)]
           None [inr (mkResponse 9 false)]).
  reflexivity.
Defined.

(** ** client.go: the temporary file after ApplyDelta has returned early *)

Lemma step_forward_blocked c l s s' f op :
  rpc s = RForward f op -> apc s = AReturned -> applyErrors s = None ->
  step c l s = Some s' ->
  rpc s' = RForward f op /\ apc s' = AReturned /\ applyErrors s' = None.
Proof.
  intros Hpc Ha He Hstep.
  destruct s; simpl in Hpc, Ha, He; subst.
  destruct l; unfold step in Hstep; simpl in Hstep; break_match Hstep;
    try discriminate Hstep; injection Hstep as <-; repeat split.
Qed.

Lemma run_stage_in_step c paths ls s :
  run c ls (initial paths) = Some s -> stage_in_step s.
Proof.
  intros Hrun.
  apply (run_invariant c stage_in_step) with (ls := ls) (s := initial paths).
  - intros l s1 s2 H1 Hs. eapply step_stage_in_step; eauto.
  - split; reflexivity.
  - exact Hrun.
Qed.

Lemma run_log_in_step c paths ls s :
  run c ls (initial paths) = Some s -> log_in_step s.
Proof.
  intros Hrun.
  apply (run_invariant c log_in_step) with (ls := ls) (s := initial paths).
  - intros l s1 s2 H1 Hs. eapply step_log_in_step; eauto.
  - constructor.
  - exact Hrun.
Qed.

(** C6. The commit is not reached for every dequeued path.  Once receive
    has taken the result of ApplyDelta in the select statement
    ([applyExited]) and, after the burn, is forwarding the next response
    it decoded, then however the run goes on receive stays there: the last
    thing that happened in the staging directory is the creation of the
    temporary file of that path, which is neither renamed nor removed, and
    Stage does not return. *)
Theorem C6_temp_file_left_after_apply_failure (c : Client)
    (paths : list Path) (ls1 ls2 : list label) (s s2 : state) (f : feed)
    (op : Operation) :
  run c ls1 (initial paths) = Some s ->
  rpc s = RForward f op ->
  applyExited f = true ->
  run c ls2 s = Some s2 ->
  rpc s2 = RForward f op /\
  returned s2 = false /\
  exists log,
    complete_log log /\ fslog s2 = (log ++ [FsTempFile (target f)])%list.
Proof.
  intros Hrun Hpc Hex Hrun2.
  destruct (run_apply_consistent _ _ _ Hrun) as [_ H2].
  destruct (H2 f) as [Ha He]; [rewrite Hpc; reflexivity|exact Hex|].
  assert (Hpc2 : rpc s2 = RForward f op).
  { apply (run_invariant c
             (fun x => rpc x = RForward f op /\ apc x = AReturned /\
                       applyErrors x = None)) with (ls := ls2) (s := s);
      [|repeat split; assumption|exact Hrun2].
    intros l x x' (Hx1 & Hx2 & Hx3) Hstep.
    eapply step_forward_blocked; eauto. }
  assert (Hall : run c (ls1 ++ ls2) (initial paths) = Some s2)
    by (rewrite run_app, Hrun; exact Hrun2).
  split; [exact Hpc2|]. split.
  - pose proof (run_stage_in_step _ _ _ Hall) as HS.
    unfold stage_in_step, returned, receive_ended in *.
    destruct (spc s2); try reflexivity.
    rewrite Hpc2 in HS. destruct HS as (_ & HS & _). discriminate HS.
  - pose proof (run_log_in_step _ _ _ Hall) as HL.
    unfold log_in_step in HL. rewrite Hpc2 in HL. exact HL.
Qed.

(** ApplyDelta fails with "write failed" on the first operation of "go":
    while dispatch goes on to send "godoc" and to close the queue, the
    temporary file of "go" stays, neither removed nor renamed. *)
Lemma C6_temp_file_left_after_apply_failure_witness :
  run Examples.client Examples.apply_fails_receiving
    (initial [Examples.go; Examples.godoc])
    = Some Examples.apply_failed_forwarding /\
  rpc Examples.apply_failed_forwarding
    = RForward Examples.apply_failed_feed 9 /\
  applyError Examples.apply_failed_feed = Some "write failed" /\
  run Examples.client Examples.dispatch_goes_on
    Examples.apply_failed_forwarding = Some Examples.apply_failed_end /\
  fslog Examples.apply_failed_end = [FsTempFile "/srv/staging/staging1"] /\
  stuck Examples.client Examples.apply_failed_end /\
  rpc Examples.apply_failed_end = RForward Examples.apply_failed_feed 9 /\
  returned Examples.apply_failed_end = false /\
  exists log,
    complete_log log /\
    fslog Examples.apply_failed_end
      = (log ++ [FsTempFile (target Examples.apply_failed_feed)])%list.
Proof.
  split; [run_eval|]. split; [reflexivity|]. split; [reflexivity|].
  split; [run_eval|]. split; [reflexivity|].
  split; [intros l; destruct l; reflexivity|].
  refine (@C6_temp_file_left_after_apply_failure Examples.client
            [Examples.go; Examples.godoc] Examples.apply_fails_receiving
            Examples.dispatch_goes_on Examples.apply_failed_forwarding
            Examples.apply_failed_end Examples.apply_failed_feed 9
            _ eq_refl eq_refl _); run_eval.
Defined.
